(** * A shallow embedding of the SWAPI aggregation service (src/index.js)

    The service exposes two endpoints, [/people] and [/planets].  Both walk a
    paginated upstream collection ([fetchAllPages]), [/planets] additionally
    replaces every resident link by the resident's name
    ([fetchResidentsWithErrorHandling]), and both keep the assembled
    collection in a process-wide cache for five minutes.

    The embedding follows the source function by function.  JavaScript values
    are an inductive type, exceptions are an explicit [Throw] result, the
    upstream API is an oracle that answers a request as a function of the
    requests issued before it, and the handlers thread a state made of the
    clock, the log of upstream requests, the cache and the arrays the
    handlers own. *)

From Stdlib Require Import ZArith List String Ascii Lia Sorted.
From Stdlib Require OrderedTypeEx.
From stdpp Require Import base option list gmap strings pretty.

Local Open Scope string_scope.
Local Open Scope list_scope.
Local Open Scope Z_scope.
Set Warnings "-register-all".

(** ** JavaScript values *)

(** Objects are association lists in insertion order, with distinct keys;
    arrays are lists; numbers are integers; a string is its sequence of
    characters. *)
Inductive value : Type :=
  | VUndefined
  | VNull
  | VBool (b : bool)
  | VNum (z : Z)
  | VStr (s : string)
  | VArr (elems : list value)
  | VObj (fields : list (string * value)).

(** Exceptions the modelled code can raise. *)
Inductive exn : Type :=
  | TypeError      (* property access on undefined/null, calling a non-function *)
  | RangeError     (* invalid array length *)
  | SyntaxError    (* response body is not JSON *)
  | FetchFailed.   (* the fetch promise rejected *)

Inductive result (A : Type) : Type :=
  | Ok (a : A)
  | Throw (e : exn).
Arguments Ok {A} a.
Arguments Throw {A} e.

(** The numbers [Math.ceil(count / pageSize) - 1] can produce.  Finite
    numbers are integers: both operands are integers in every run the service
    is meant for, and the quotient is rounded up at once. *)
Inductive number : Type :=
  | Fin (z : Z)
  | NaN
  | PInf
  | NInf.

(** What the upstream answers to one [fetch]: the promise rejects, or it
    resolves to a response with its [ok] flag and its body ([None] when the
    body is not JSON, so that [response.json()] rejects). *)
Inductive fetch_result : Type :=
  | Rejected
  | Response (ok : bool) (body : option value).

(** ** Object and array primitives *)

Fixpoint obj_get (k : string) (o : list (string * value)) : value :=
  match o with
  | [] => VUndefined
  | (k', v) :: o' => if String.eqb k k' then v else obj_get k o'
  end.

(** Assignment of an own property: an existing key keeps its place, a new key
    goes last. *)
Fixpoint obj_set (k : string) (v : value) (o : list (string * value))
  : list (string * value) :=
  match o with
  | [] => [(k, v)]
  | (k', v') :: o' =>
      if String.eqb k k' then (k', v) :: o' else (k', v') :: obj_set k v o'
  end.

(** [v.k] for the property names the service reads: [count], [results],
    [residents], [name], [height], [mass] and [length].  None of them but
    [length] is defined on a prototype, so only own properties matter. *)
Definition get_prop (v : value) (k : string) : result value :=
  match v with
  | VUndefined | VNull => Throw TypeError
  | VObj o => Ok (obj_get k o)
  | VArr l => Ok (if String.eqb k "length" then VNum (Z.of_nat (length l)) else VUndefined)
  | VStr s => Ok (if String.eqb k "length" then VNum (Z.of_nat (String.length s)) else VUndefined)
  | VBool _ | VNum _ => Ok VUndefined
  end.

(** Truthiness, as [||] tests it. *)
Definition truthy (v : value) : bool :=
  match v with
  | VUndefined | VNull => false
  | VBool b => b
  | VNum z => negb (z =? 0)
  | VStr s => negb (String.eqb s EmptyString)
  | VArr _ | VObj _ => true
  end.

(** [a || b] *)
Definition js_or (a b : value) : value := if truthy a then a else b.

(** [list.includes(v)] for a list of string literals: only a string can be
    the same value as one of them. *)
Definition includes (l : list string) (v : value) : bool :=
  match v with
  | VStr s => existsb (String.eqb s) l
  | _ => false
  end.

(** [[...v]]: the elements of an array, the characters of a string; nothing
    else the service handles is iterable. *)
Definition spread (v : value) : result (list value) :=
  match v with
  | VArr l => Ok l
  | VStr s => Ok (map (fun c => VStr (String c EmptyString)) (list_ascii_of_string s))
  | _ => Throw TypeError
  end.

(** [arr.flat()]: one level of nested arrays is spliced in. *)
Definition flat (l : list value) : list value :=
  concat (map (fun v => match v with VArr l' => l' | _ => [v] end) l).

(** ** Numbers *)

(** [Math.ceil(a / b)].  The code divides two doubles and rounds the
    quotient up.  For integers below 2^53 in magnitude that is the exact
    ceiling, which is what is computed here; beyond that range the operands
    or their quotient are rounded and the code may arrive at another
    integer. *)
Definition ceil_div (a b : number) : number :=
  match a, b with
  | NaN, _ | _, NaN => NaN
  | Fin x, Fin y =>
      if y =? 0 then (if 0 <? x then PInf else if x <? 0 then NInf else NaN)
      else Fin (- ((- x) / y))
  | Fin _, (PInf | NInf) => Fin 0
  | PInf, Fin y => if y <? 0 then NInf else PInf
  | NInf, Fin y => if y <? 0 then PInf else NInf
  | (PInf | NInf), (PInf | NInf) => NaN
  end.

(** [n - 1] *)
Definition num_pred (n : number) : number :=
  match n with
  | Fin z => Fin (z - 1)
  | other => other
  end.

(** [n > 0] *)
Definition num_pos (n : number) : bool :=
  match n with
  | Fin z => 0 <? z
  | PInf => true
  | NaN | NInf => false
  end.

(** ** The environment of the process *)

(** Everything the service takes from outside: its configuration, the
    upstream API, and the coercions and the collation of the language
    runtime.  The upstream answers a request as a function of the requests
    issued so far, so repeated requests for one URL need not agree; [latency]
    is the time in milliseconds that a request adds to the clock. *)
Record environment : Type := {
  SWAPI_HOST : string;                                (* process.env.SWAPI_HOST *)
  SWAPI_PAGE_SIZE : value;                            (* process.env.SWAPI_PAGE_SIZE *)
  upstream : list value -> value -> fetch_result;
  latency : list value -> value -> N;
  StringToNumber : string -> number;                  (* numeric value of a string *)
  ToString : value -> string;                         (* string conversion *)
  localeCompare : string -> string -> Z               (* String.prototype.localeCompare *)
}.

(** ** State and the monad of the handlers *)

Definition loc := positive.

(** A handler variable holds an array by reference or any other value
    directly; only top-level arrays are ever mutated. *)
Inductive jsref : Type :=
  | Arr (l : loc)
  | Prim (v : value).

Record state : Type := {
  clock : Z;                                 (* Date.now(), in milliseconds *)
  log : list value;                          (* upstream requests, oldest first *)
  cache : gmap string (Z * value);           (* key -> (expiry, stored copy) *)
  heap : gmap loc (list value)               (* arrays owned by the handlers *)
}.

(** A computation runs from a state to a value or an exception, and a new
    state; what it did to the state before it threw stays done. *)
Definition M (A : Type) : Type := state -> result A * state.

Definition ret {A} (a : A) : M A := fun s => (Ok a, s).
Definition throw {A} (e : exn) : M A := fun s => (Throw e, s).
Definition bind {A B} (m : M A) (k : A -> M B) : M B :=
  fun s => match m s with
           | (Ok a, s') => k a s'
           | (Throw e, s') => (Throw e, s')
           end.
Definition lift {A} (r : result A) : M A := fun s => (r, s).

(** [try { m } catch (error) { h }] *)
Definition try_catch {A} (m : M A) (h : exn -> M A) : M A :=
  fun s => match m s with
           | (Ok a, s') => (Ok a, s')
           | (Throw e, s') => h e s'
           end.

Definition rbind {A B} (r : result A) (k : A -> result B) : result B :=
  match r with
  | Ok a => k a
  | Throw e => Throw e
  end.

Declare Scope js_scope.
Delimit Scope js_scope with js.
Notation "x <- m ; k" := (bind m (fun x => k))
  (at level 20, m at level 100, k at level 200) : js_scope.
Notation "'exec' m ; k" := (bind m (fun _ => k))
  (at level 20, m at level 100, k at level 200) : js_scope.
Notation "x <~ r ; k" := (rbind r (fun x => k))
  (at level 20, r at level 100, k at level 200) : js_scope.
Local Open Scope js_scope.

Fixpoint mapM {A B} (f : A -> M B) (l : list A) : M (list B) :=
  match l with
  | [] => ret []
  | x :: l' => y <- f x ; ys <- mapM f l' ; ret (y :: ys)
  end.

Fixpoint rmap {A B} (f : A -> result B) (l : list A) : result (list B) :=
  match l with
  | [] => Ok []
  | x :: l' => y <~ f x ; ys <~ rmap f l' ; Ok (y :: ys)
  end.

Definition set_clock (t : Z) (s : state) : state :=
  {| clock := t; log := log s; cache := cache s; heap := heap s |}.
Definition set_log (l : list value) (s : state) : state :=
  {| clock := clock s; log := l; cache := cache s; heap := heap s |}.
Definition set_cache (c : gmap string (Z * value)) (s : state) : state :=
  {| clock := clock s; log := log s; cache := c; heap := heap s |}.
Definition set_heap (h : gmap loc (list value)) (s : state) : state :=
  {| clock := clock s; log := log s; cache := cache s; heap := h |}.

(** *** Arrays held by reference *)

(** A new array object. *)
Definition alloc_array (l : list value) : M jsref :=
  fun s => let p := fresh (dom (heap s)) in
           (Ok (Arr p), set_heap (<[p := l]> (heap s)) s).

(** A value produced by parsing or by an array literal is a new object. *)
Definition alloc (v : value) : M jsref :=
  match v with
  | VArr l => alloc_array l
  | _ => ret (Prim v)
  end.

(** The value a reference currently denotes. *)
Definition deref (r : jsref) : M value :=
  match r with
  | Arr p => fun s => (Ok (VArr (default [] (heap s !! p))), s)
  | Prim v => ret v
  end.

Definition ref_truthy (r : jsref) : bool :=
  match r with
  | Arr _ => true
  | Prim v => truthy v
  end.

(** ** The service *)

(** Requests are handled one at a time: a handler runs to its response
    before the next one starts. *)
Section Service.

Context (E : environment).

(** *** Coercions of the runtime *)

Definition to_string (v : value) : string :=
  match v with
  | VStr s => s
  | _ => ToString E v
  end.

Definition ToNumber (v : value) : number :=
  match v with
  | VUndefined => NaN
  | VNull => Fin 0
  | VBool b => Fin (if b then 1 else 0)
  | VNum z => Fin z
  | VStr s => StringToNumber E s
  | VArr _ | VObj _ => StringToNumber E (ToString E v)
  end.

(** [v === s] for a string literal [s] *)
Definition is_string (s : string) (v : value) : bool :=
  match v with
  | VStr s' => String.eqb s' s
  | _ => false
  end.

(** [v === 0] *)
Definition is_zero (v : value) : bool :=
  match v with
  | VNum z => z =? 0
  | _ => false
  end.

(** *** Upstream requests *)

(** [fetch(url)]: the request is issued and logged at once; its outcome is
    what the promise settles to. *)
Definition fetch (url : value) : M fetch_result :=
  fun s => (Ok (upstream E (log s) url),
            set_clock (clock s + Z.of_N (latency E (log s) url))
                      (set_log (log s ++ [url]) s)).

(** [await] of one fetch promise *)
Definition settled (r : fetch_result) : result (bool * option value) :=
  match r with
  | Rejected => Throw FetchFailed
  | Response ok body => Ok (ok, body)
  end.

(** [await response.json()] *)
Definition json (response : bool * option value) : result value :=
  match snd response with
  | Some v => Ok v
  | None => Throw SyntaxError
  end.

(** [`${process.env.SWAPI_HOST}/api/${endpoint}?page=${n}`] *)
Definition page_url (endpoint : string) (n : Z) : value :=
  VStr (SWAPI_HOST E +:+ "/api/" +:+ endpoint +:+ "?page=" +:+ pretty n).

(** The indices [Array.from({ length }, ...)] runs over; a length above
    2^32 - 1 is not a valid array length. *)
Definition array_indices (len : number) : result (list nat) :=
  match len with
  | Fin z => if z <=? 4294967295 then Ok (seq 0 (Z.to_nat z)) else Throw RangeError
  | PInf => Throw RangeError
  | NaN | NInf => Ok []
  end.

(** *** [fetchAllPages] (src/index.js, lines 36-54) *)

Definition fetchAllPages (endpoint : string) : M value :=
  initialRequest <- fetch (page_url endpoint 1);
  initialRequest <- lift (settled initialRequest);
  initialData <- lift (json initialRequest);
  count <- lift (get_prop initialData "count");
  results <- lift (get_prop initialData "results");
  let remainingPages :=
    num_pred (ceil_div (ToNumber count) (ToNumber (SWAPI_PAGE_SIZE E))) in
  if num_pos remainingPages then
    indices <- lift (array_indices remainingPages);
    requests <- mapM (fun i => fetch (page_url endpoint (Z.of_nat i + 2))) indices;
    responses <- lift (rmap settled requests);
    data <- lift (rmap json responses);
    head <- lift (spread results);
    pages <- lift (rmap (fun page => get_prop page "results") data);
    ret (VArr (head ++ flat pages))
  else
    ret results.

(** *** [fetchResidentsWithErrorHandling] (src/index.js, lines 57-93) *)

(** [planet.residents.map(url => ({ planetIndex, url }))] *)
Definition resident_urls (planetIndex : nat) (planet : value)
  : result (list (nat * value)) :=
  residents <~ get_prop planet "residents";
  match residents with
  | VArr urls => Ok (map (fun url => (planetIndex, url)) urls)
  | _ => Throw TypeError
  end.

(** [planets.flatMap((planet, planetIndex) => ...)], from index [i] on *)
Fixpoint flatMap_residents (i : nat) (planets : list value)
  : result (list (nat * value)) :=
  match planets with
  | [] => Ok []
  | planet :: rest =>
      here <~ resident_urls i planet;
      there <~ flatMap_residents (S i) rest;
      Ok (here ++ there)
  end.

(** The name one settled resident request yields; every failure inside the
    [try] block gives ['Unknown']. *)
Definition resident_name (r : fetch_result) : value :=
  match r with
  | Rejected => VStr "Unknown"
  | Response ok body =>
      if negb ok then VStr "Unknown"
      else match body with
           | None => VStr "Unknown"
           | Some data =>
               match get_prop data "name" with
               | Ok name => name
               | Throw _ => VStr "Unknown"
               end
           end
  end.

(** The body of the [async] callback of [residentPromises] *)
Definition resident_promise (entry : nat * value) : M (nat * value) :=
  r <- fetch (snd entry);
  ret (fst entry, resident_name r).

(** The reducer that groups names by planet index *)
Definition group_step (acc : gmap nat (list value)) (entry : nat * value)
  : gmap nat (list value) :=
  <[fst entry := default [] (acc !! fst entry) ++ [snd entry]]> acc.

(** [{ ...v }]: the own enumerable properties of [v] *)
Definition own_properties (v : value) : list (string * value) :=
  match v with
  | VObj o => o
  | VArr l => imap (fun i x => (pretty i, x)) l
  | VStr s =>
      imap (fun i c => (pretty i, VStr (String c EmptyString))) (list_ascii_of_string s)
  | _ => []
  end.

Definition fetchResidentsWithErrorHandling (planets : value) : M value :=
  match planets with
  | VArr planets =>
      allResidentUrls <- lift (flatMap_residents 0 planets);
      residentResults <- mapM resident_promise allResidentUrls;
      let residentsByPlanet := fold_left group_step residentResults ∅ in
      ret (VArr (imap (fun index planet =>
                         VObj (obj_set "residents"
                                 (VArr (default [] (residentsByPlanet !! index)))
                                 (own_properties planet)))
                      planets))
  | _ => throw TypeError
  end.

(** *** The freshness cache *)

(** Modelled from the spec: the cache object [myCache] is an instance of the
    node-cache package, whose code is not part of the repository.  Following
    section 4.4, [cache_get] answers with the stored collection unless the
    key was never populated or its entry is past [expiresAt] (checked lazily
    on read), and [cache_set] replaces the entry wholesale with an expiry
    [ttl] seconds ahead.  An entry is owned exclusively by the cache and is
    never partially mutated: the cache keeps a copy of what it is given and
    hands out a copy, so a hit yields a new array object. *)
Definition cache_get (key : string) : M jsref :=
  fun s => match cache s !! key with
           | Some (expiresAt, v) =>
               if expiresAt <? clock s then (Ok (Prim VUndefined), s) else alloc v s
           | None => (Ok (Prim VUndefined), s)
           end.

(** Modelled from the spec: see [cache_get]. *)
Definition cache_set (key : string) (r : jsref) (ttl : Z) : M unit :=
  v <- deref r;
  fun s => (Ok tt, set_cache (<[key := (clock s + ttl * 1000, v)]> (cache s)) s).

(** *** [Array.prototype.sort] *)

(** The language fixes the result of [sort] only up to the order in which
    the comparator is called: the sort is stable, and [undefined] elements go
    last without being compared.  Insertion from the right is one such
    sort.  It calls the comparator with the earlier element first; an engine
    may as well call it with the later one first, and on other pairs.  The
    difference shows only where a call throws or the comparator is
    inconsistent: a comparator that never throws and is consistent gives the
    same array with every such sort.  So what is proved below about a sort
    that throws is stated for collections on which every sort has to
    throw. *)
Fixpoint insert_sorted {A} (cmp : A -> A -> result Z) (x : A) (l : list A)
  : result (list A) :=
  match l with
  | [] => Ok [x]
  | y :: l' =>
      c <~ cmp x y;
      if c <=? 0 then Ok (x :: y :: l')
      else (r <~ insert_sorted cmp x l'; Ok (y :: r))
  end.

Fixpoint insertion_sort {A} (cmp : A -> A -> result Z) (l : list A)
  : result (list A) :=
  match l with
  | [] => Ok []
  | x :: l' => sorted <~ insertion_sort cmp l'; insert_sorted cmp x sorted
  end.

Definition is_undefined (v : value) : bool :=
  match v with
  | VUndefined => true
  | _ => false
  end.

Definition sort_values (cmp : value -> value -> result Z) (l : list value)
  : result (list value) :=
  sorted <~ insertion_sort cmp (List.filter (fun v => negb (is_undefined v)) l);
  Ok (sorted ++ List.filter is_undefined l).

(** [r.sort(cmp)]: the array is sorted in place and returned; a comparator
    that throws leaves it as it was.  Nothing but an array has a [sort]
    method. *)
Definition Array_sort (cmp : value -> value -> result Z) (r : jsref) : M jsref :=
  match r with
  | Arr p =>
      fun s => match sort_values cmp (default [] (heap s !! p)) with
               | Ok sorted => (Ok (Arr p), set_heap (<[p := sorted]> (heap s)) s)
               | Throw e => (Throw e, s)
               end
  | Prim _ => throw TypeError
  end.

(** [a[k].localeCompare(b[k])] *)
Definition field_compare (k : string) (a b : value) : result Z :=
  x <~ get_prop a k;
  match x with
  | VStr s => y <~ get_prop b k; Ok (localeCompare E s (to_string y))
  | _ => Throw TypeError
  end.

(** The comparator of the [/people] handler (src/index.js, lines 122-127) *)
Definition compare_people (sortBy sortOrder : value) (a b : value) : result Z :=
  if is_string "asc" sortOrder then field_compare (to_string sortBy) a b
  else field_compare (to_string sortBy) b a.

(** *** The handlers *)

Record response : Type := { status : Z; body : value }.

(** [res.status(code).json(payload)] *)
Definition respond (code : Z) (payload : value) : M response :=
  ret {| status := code; body := payload |}.

Definition VALID_SORT_BY : list string := ["name"; "height"; "mass"].
Definition VALID_SORT_ORDER : list string := ["asc"; "desc"].

(** [r.length] *)
Definition length_of (r : jsref) : M value :=
  v <- deref r;
  lift (get_prop v "length").

(** [myCache.get(key) || []] *)
Definition cached_or_empty (key : string) : M jsref :=
  cached <- cache_get key;
  if ref_truthy cached then ret cached else alloc_array [].

(** The sort step of [/people] *)
Definition sort_stage (sortBy sortOrder : value) (people : jsref) : M jsref :=
  Array_sort (compare_people sortBy sortOrder) people.

(** [app.get('/people', ...)] (src/index.js, lines 100-138) *)
Definition get_people (query_sortBy query_sortOrder : value) : M response :=
  try_catch
    (let sortBy := js_or query_sortBy (VStr "name") in
     let sortOrder := js_or query_sortOrder (VStr "asc") in
     if negb (includes VALID_SORT_BY sortBy) then
       respond 400 (VObj [("error", VStr "Invalid sortBy parameter")])
     else if negb (includes VALID_SORT_ORDER sortOrder) then
       respond 400 (VObj [("error", VStr "Invalid sortOrder parameter")])
     else
       people <- cached_or_empty "PEOPLE";
       len <- length_of people;
       people <- (if is_zero len then
                    fetched <- fetchAllPages "people";
                    people <- alloc fetched;
                    exec cache_set "PEOPLE" people 300;
                    ret people
                  else ret people);
       people <- sort_stage sortBy sortOrder people;
       count <- length_of people;
       results <- deref people;
       respond 200 (VObj [("count", count); ("results", results)]))
    (fun _ => respond 500 (VObj [("error", VStr "Internal server error")])).

(** [app.get('/planets', ...)] (src/index.js, lines 141-160) *)
Definition get_planets : M response :=
  try_catch
    (planets <- cached_or_empty "PLANETS";
     len <- length_of planets;
     planets <- (if is_zero len then
                   fetched <- fetchAllPages "planets";
                   resolved <- fetchResidentsWithErrorHandling fetched;
                   planets <- alloc resolved;
                   exec cache_set "PLANETS" planets 300;
                   ret planets
                 else ret planets);
     count <- length_of planets;
     results <- deref planets;
     respond 200 (VObj [("count", count); ("results", results)]))
    (fun _ => respond 500 (VObj [("error", VStr "Internal server error")])).

(** *** The service over time *)

Inductive request : Type :=
  | GetPeople (sortBy sortOrder : value)   (* the two query parameters *)
  | GetPlanets.

Definition handle (r : request) : M response :=
  match r with
  | GetPeople sortBy sortOrder => get_people sortBy sortOrder
  | GetPlanets => get_planets
  end.

(** Between requests, time passes. *)
Inductive event : Type :=
  | Elapse (ms : N)
  | Request (r : request).

Fixpoint run (events : list event) (s : state) : list (result response) * state :=
  match events with
  | [] => ([], s)
  | Elapse ms :: rest => run rest (set_clock (clock s + Z.of_N ms) s)
  | Request r :: rest =>
      let (out, s') := handle r s in
      let (outs, s'') := run rest s' in
      (out :: outs, s'')
  end.

End Service.

Arguments fetchAllPages E endpoint s : simpl never.

(** ** A concrete world *)

(** A small environment on which the definitions can be run: the upstream is
    a table from URLs to answers (anything else is unreachable), requests
    take 40 ms, strings compare by code unit, and decimal numerals denote
    their numbers. *)
Module World.

Fixpoint lookup_url (u : string) (table : list (string * fetch_result)) : fetch_result :=
  match table with
  | [] => Rejected
  | (u', r) :: table' => if String.eqb u u' then r else lookup_url u table'
  end.

Definition table_upstream (table : list (string * fetch_result))
  : list value -> value -> fetch_result :=
  fun _ url => match url with
               | VStr u => lookup_url u table
               | _ => Rejected
               end.

Definition digit (c : ascii) : option Z :=
  let n := Z.of_N (N_of_ascii c) in
  if (48 <=? n) && (n <=? 57) then Some (n - 48) else None.

Fixpoint decimal (acc : Z) (s : string) : number :=
  match s with
  | EmptyString => Fin acc
  | String c s' =>
      match digit c with
      | Some d => decimal (10 * acc + d) s'
      | None => NaN
      end
  end.

Definition compare_code_units (a b : string) : Z :=
  match String.compare a b with
  | Lt => -1
  | Eq => 0
  | Gt => 1
  end.

Definition show (v : value) : string :=
  match v with
  | VUndefined => "undefined"
  | VNull => "null"
  | VBool true => "true"
  | VBool false => "false"
  | VNum z => pretty z
  | VStr s => s
  | VArr _ => EmptyString
  | VObj _ => "[object Object]"
  end.

Definition env (pageSize : string) (table : list (string * fetch_result)) : environment :=
  {| SWAPI_HOST := "https://swapi.dev";
     SWAPI_PAGE_SIZE := VStr pageSize;
     upstream := table_upstream table;
     latency := fun _ _ => 40%N;
     StringToNumber := decimal 0;
     ToString := show;
     localeCompare := compare_code_units |}.

Definition start : state :=
  {| clock := 0; log := []; cache := ∅; heap := ∅ |}.

Definition person (name height : string) : value :=
  VObj [("name", VStr name); ("height", VStr height)].

Definition planet (name : string) (residents : list string) : value :=
  VObj [("name", VStr name); ("residents", VArr (map VStr residents)); ("climate", VStr "arid")].

Definition page (count : Z) (results : list value) : fetch_result :=
  Response true (Some (VObj [("count", VNum count); ("next", VNull); ("results", VArr results)])).

Definition named (name : string) : fetch_result :=
  Response true (Some (VObj [("name", VStr name)])).

(** Three people on two pages of two. *)
Definition luke : value := person "Luke Skywalker" "172".
Definition c3po : value := person "C-3PO" "167".
Definition vader : value := person "Darth Vader" "202".

Definition people_pages : list (list value) := [[luke; c3po]; [vader]].

Definition people_table : list (string * fetch_result) :=
  [("https://swapi.dev/api/people?page=1", page 3 [luke; c3po]);
   ("https://swapi.dev/api/people?page=2", page 3 [vader])].

(** The same collection, but the second page is answered with status 404
    and a JSON body that is not an envelope. *)
Definition not_found : fetch_result :=
  Response false (Some (VObj [("detail", VStr "Not found")])).

Definition broken_table : list (string * fetch_result) :=
  [("https://swapi.dev/api/people?page=1", page 3 [luke; c3po]);
   ("https://swapi.dev/api/people?page=2", not_found)].

(** Two planets that share a resident; the lookup of the other resident
    fails. *)
Definition two_planets : list value :=
  [planet "Tatooine" ["u/1"; "u/2"]; planet "Stewjon" ["u/1"]].

Definition planets_table : list (string * fetch_result) :=
  [("https://swapi.dev/api/planets?page=1", page 2 two_planets);
   ("u/1", named "Luke Skywalker");
   ("u/2", not_found)].

(** What the resolver makes of [two_planets]. *)
Definition two_planets_resolved : list value :=
  [VObj [("name", VStr "Tatooine");
         ("residents", VArr [VStr "Luke Skywalker"; VStr "Unknown"]);
         ("climate", VStr "arid")];
   VObj [("name", VStr "Stewjon");
         ("residents", VArr [VStr "Luke Skywalker"]);
         ("climate", VStr "arid")]].


(** A state in which the handler holds [records] in the array [p]. *)
Definition holding (p : loc) (records : list value) : state :=
  {| clock := 0; log := []; cache := ∅; heap := {[p := records]} |}.

(** A state in which the cache holds [records] under [key] until [expiresAt]. *)
Definition caching (key : string) (expiresAt : Z) (records : list value) : state :=
  {| clock := 0; log := []; cache := {[key := (expiresAt, VArr records)]}; heap := ∅ |}.

End World.

(** * Vocabulary of the properties *)

(** ** Upstream requests *)

Section Vocabulary.

Context (E : environment).

(** What the upstream answers to a batch of requests issued in order, the
    log being [log] when the first is issued. *)
Fixpoint answers (log : list value) (urls : list value) : list fetch_result :=
  match urls with
  | [] => []
  | url :: urls' => upstream E log url :: answers (log ++ [url]) urls'
  end.

(** A lookup fails by a transport error or by a non-success status. *)
Definition lookup_failed (r : fetch_result) : Prop :=
  r = Rejected \/ exists body, r = Response false body.

(** A page request that was answered, with a body that is JSON. *)
Definition answered (r : fetch_result) : Prop :=
  exists ok data, r = Response ok (Some data).

(** ** The cross-reference resolver *)

(** A planet record, as the resolver needs it: it carries a list of links. *)
Definition has_residents (planet : value) : Prop :=
  exists urls, get_prop planet "residents" = Ok (VArr urls).

Definition links_of (planet : value) : list value :=
  match get_prop planet "residents" with
  | Ok (VArr urls) => urls
  | _ => []
  end.

(** The entries of several lists, each tagged with the index of its list. *)
Fixpoint tagged {A} (i : nat) (chunks : list (list A)) : list (nat * A) :=
  match chunks with
  | [] => []
  | c :: chunks' => map (pair i) c ++ tagged (S i) chunks'
  end.

(** [acc[j] || []] *)
Definition group_get (acc : gmap nat (list value)) (j : nat) : list value :=
  default [] (acc !! j).

(** The names the upstream yields for the links of each record, the links
    being requested record by record, each record's in order. *)
Fixpoint resolved_names (log : list value) (chunks : list (list value))
  : list (list value) :=
  match chunks with
  | [] => []
  | c :: chunks' =>
      map resident_name (answers log c) :: resolved_names (log ++ c) chunks'
  end.

(** The record the resolver returns in place of [planet], given the names
    of its residents. *)
Definition with_residents (names : list value) (planet : value) : value :=
  VObj (obj_set "residents" (VArr names) (own_properties planet)).

(** The requests for the token [T] among [urls]. *)
Definition requests_for (T : string) (urls : list value) : nat :=
  length (List.filter (is_string T) urls).

(** The occurrences of the token [T] in the link lists of [planets]. *)
Fixpoint occurrences (T : string) (planets : list value) : nat :=
  match planets with
  | [] => 0
  | planet :: rest =>
      length (List.filter (is_string T) (links_of planet)) + occurrences T rest
  end.

(** ** Pagination *)

(** A collection cut into pages of [pageSize] records: every page but the
    last is full, and the last one is empty only if it is the only one. *)
Definition paginated (pageSize : Z) (pages : list (list value)) : Prop :=
  exists full final,
    pages = full ++ [final]
    /\ Forall (fun page => Z.of_nat (length page) = pageSize) full
    /\ Z.of_nat (length final) <= pageSize
    /\ (full <> [] -> final <> []).

(** The upstream serves [pages] under [endpoint], whatever was requested
    before, and reports [count] with the first page. *)
Definition serves (endpoint : string) (count : Z) (pages : list (list value)) : Prop :=
  forall log k page, pages !! k = Some page ->
    exists ok envelope,
      upstream E log (page_url E endpoint (Z.of_nat k + 1)) = Response ok (Some envelope)
      /\ get_prop envelope "results" = Ok (VArr page)
      /\ (k = 0%nat -> get_prop envelope "count" = Ok (VNum count)).

(** ** Sorting *)

(** A record that can be sorted on field [k]: the field holds a string. *)
Definition has_string_field (k : string) (v : value) : Prop :=
  exists s, get_prop v k = Ok (VStr s).

(** The elements of a list, each with its position, counted from [k]. *)
Fixpoint enumerate {A} (k : nat) (l : list A) : list (nat * A) :=
  match l with
  | [] => []
  | x :: l' => (k, x) :: enumerate (S k) l'
  end.

(** A comparator seen through a projection. *)
Definition compare_on {A B} (f : B -> A) (cmp : A -> A -> result Z) : B -> B -> result Z :=
  fun a b => cmp (f a) (f b).

(** No element stands after one it was before in the input unless the
    comparator put it there. *)
Definition kept_in_order {A} (cmp : A -> A -> result Z) (a b : nat * A) : Prop :=
  (fst b < fst a)%nat -> forall c, cmp (snd b) (snd a) = Ok c -> 0 < c.

(** [a] may stand before [b]: the comparator does not put [b] first. *)
Definition in_order {A} (cmp : A -> A -> result Z) (a b : A) : Prop :=
  exists c, cmp a b = Ok c /\ c <= 0.

(** ** The endpoints *)

(** A computation that neither reads nor writes the cache and the arrays of
    the handlers: all it does is talk to the upstream. *)
Definition upstream_only {A} (m : M A) : Prop :=
  forall c h s,
    m (set_cache c (set_heap h s)) = (fst (m s), set_cache c (set_heap h (snd (m s)))).

(** A computation that leaves the [/planets] entry of the cache alone. *)
Definition keeps_planets {A} (m : M A) : Prop :=
  forall s, cache (snd (m s)) !! "PLANETS" = cache s !! "PLANETS".

(** One fetch-and-resolve cycle of [/planets]. *)
Definition fetch_and_resolve : M value :=
  fetched <- fetchAllPages E "planets";
  fetchResidentsWithErrorHandling E fetched.

(** The cache has nothing the handlers use under [key]: no entry, an entry
    past its expiry, or an empty collection. *)
Definition nothing_cached (key : string) (s : state) : Prop :=
  cache s !! key = None
  \/ exists expiresAt v,
       cache s !! key = Some (expiresAt, v) /\ (expiresAt < clock s \/ v = VArr []).


(** What [/planets] finds in the cache, if anything, is a collection. *)
Definition planets_cached_as_array (s : state) : Prop :=
  forall expiresAt v, cache s !! "PLANETS" = Some (expiresAt, v) -> exists l, v = VArr l.

(** The body of a successful response. *)
Definition collection_body (records : list value) : value :=
  VObj [("count", VNum (Z.of_nat (length records))); ("results", VArr records)].

Definition ok_response (records : list value) : response :=
  {| status := 200; body := collection_body records |}.

Definition error_response (code : Z) (message : string) : response :=
  {| status := code; body := VObj [("error", VStr message)] |}.

(** A response that, if it is a success, carries a collection and the number
    of its records. *)
Definition counts_its_results (o : result response) : Prop :=
  forall out, o = Ok out -> status out = 200 ->
    exists records, out = ok_response records.

(** A request that passes validation. *)
Definition valid_request (r : request) : Prop :=
  match r with
  | GetPeople sortBy sortOrder =>
      includes VALID_SORT_BY (js_or sortBy (VStr "name")) = true
      /\ includes VALID_SORT_ORDER (js_or sortOrder (VStr "asc")) = true
  | GetPlanets => True
  end.

Definition cache_key (r : request) : string :=
  match r with
  | GetPeople _ _ => "PEOPLE"
  | GetPlanets => "PLANETS"
  end.


(** The upstream work a request stands for when nothing is cached. *)
Definition full_fetch (r : request) : M value :=
  match r with
  | GetPeople _ _ => fetchAllPages E "people"
  | GetPlanets => fetch_and_resolve
  end.

(** The time that passes in a sequence of events, and its requests. *)
Fixpoint elapsed (events : list event) : Z :=
  match events with
  | [] => 0
  | Elapse ms :: rest => Z.of_N ms + elapsed rest
  | Request _ :: rest => elapsed rest
  end.

Fixpoint requests (events : list event) : list request :=
  match events with
  | [] => []
  | Elapse _ :: rest => requests rest
  | Request r :: rest => r :: requests rest
  end.

(** ** Four statements that the code refutes *)

(** A token occurring at least twice is fetched once. *)
Definition fetched_once (planets : list value) (s : state) : Prop :=
  forall T, (2 <= occurrences T planets)%nat ->
    exists v s' new,
      fetchResidentsWithErrorHandling E (VArr planets) s = (Ok v, s')
      /\ log s' = log s ++ new
      /\ requests_for T new = 1%nat.

(** The sort stage returns a new array and leaves the one it was given as
    it was. *)
Definition sorts_a_copy (sortBy sortOrder : value) (p : loc) (s : state) : Prop :=
  exists q s',
    sort_stage E sortBy sortOrder (Arr p) s = (Ok (Arr q), s')
    /\ q <> p
    /\ heap s' !! p = heap s !! p.

(** A value of [sortBy] or [sortOrder] that is not listed is answered with a
    client error, in the state the request arrived in. *)
Definition rejects_unlisted (sortBy sortOrder : value) (s : state) : Prop :=
  (sortBy <> VUndefined /\ includes VALID_SORT_BY sortBy = false)
  \/ (sortOrder <> VUndefined /\ includes VALID_SORT_ORDER sortOrder = false) ->
  exists out, get_people E sortBy sortOrder s = (Ok out, s) /\ status out = 400.


End Vocabulary.

(** * Vocabulary of the further properties *)

Section FurtherVocabulary.

Context (E : environment).

(** The requests for the first [n] pages of [endpoint], in order. *)
Definition first_pages (endpoint : string) (n : nat) : list value :=
  map (fun k => page_url E endpoint (Z.of_nat k + 1)) (seq 0 n).

(** A computation that leaves the entry of the cache under [key] alone. *)
Definition keeps_entry (key : string) {A} (m : M A) : Prop :=
  forall s, cache (snd (m s)) !! key = cache s !! key.

(** A [/people] request that passes validation and whose sort field is a
    string in every one of [people]. *)
Definition sorts (people : list value) (r : request) : Prop :=
  match r with
  | GetPeople sortBy sortOrder =>
      valid_request r
      /\ Forall (has_string_field (to_string E (js_or sortBy (VStr "name")))) people
  | GetPlanets => False
  end.

(** A successful response that carries the records of [people], in some
    order. *)
Definition serves_all_of (people : list value) (o : result response) : Prop :=
  exists sorted, o = Ok (ok_response sorted) /\ sorted ≡ₚ people.

(** A computation that, if it answers, answers with status 200. *)
Definition succeeds_with_200 (m : M response) : Prop :=
  forall s out s', m s = (Ok out, s') -> status out = 200.

(** A [/people] request that passes validation. *)
Definition people_request (r : request) : Prop :=
  match r with
  | GetPeople _ _ => valid_request r
  | GetPlanets => False
  end.

(** What [/people] makes of the collection [people] for the given
    parameters: the sorted collection, or an error if it cannot be sorted. *)
Definition sorted_response (sortBy sortOrder : value) (people : list value) : response :=
  match sort_values (compare_people E (js_or sortBy (VStr "name"))
                                      (js_or sortOrder (VStr "asc"))) people with
  | Ok sorted => ok_response sorted
  | Throw _ => error_response 500 "Internal server error"
  end.

(** The output [o] is what the [/people] request [r] makes of [people]. *)
Definition answered_from (people : list value) (r : request) (o : result response) : Prop :=
  match r with
  | GetPeople sortBy sortOrder => o = Ok (sorted_response sortBy sortOrder people)
  | GetPlanets => False
  end.

(** The records of a collection that [sort] hands to the comparator:
    [undefined] elements are set aside first. *)
Definition compared (people : list value) : list value :=
  List.filter (fun v => negb (is_undefined v)) people.

Definition throws {A} (r : result A) : Prop := exists e, r = Throw e.

(** A record that cannot be compared with any record of [people], whichever
    side of the comparison it is on: [null], for one.  A sort of two or more
    records has to compare it with another at least once, so it throws in
    whatever order it calls the comparator. *)
Definition incomparable (cmp : value -> value -> result Z) (people : list value)
    (x : value) : Prop :=
  In x (compared people)
  /\ forall b, In b (compared people) -> throws (cmp x b) /\ throws (cmp b x).

(** A [/people] request that passes validation, and for whose parameters
    [people] holds an incomparable record. *)
Definition cannot_sort (people : list value) (r : request) : Prop :=
  match r with
  | GetPeople sortBy sortOrder =>
      valid_request r
      /\ exists x,
           incomparable (compare_people E (js_or sortBy (VStr "name"))
                                          (js_or sortOrder (VStr "asc"))) people x
  | GetPlanets => False
  end.

(** The strings of field [k] in two records are in the order the direction
    asks for. *)
Definition ordered_by (k : string) (sortOrder : value) (a b : value) : Prop :=
  exists sa sb,
    get_prop a k = Ok (VStr sa) /\ get_prop b k = Ok (VStr sb)
    /\ if is_string "asc" sortOrder then localeCompare E sa sb <= 0
       else localeCompare E sb sa <= 0.

End FurtherVocabulary.

(** ** Further worlds *)

(** The process was started without [SWAPI_PAGE_SIZE]: the variable reads as
    [undefined]. *)
Definition unconfigured (table : list (string * fetch_result)) : environment :=
  {| SWAPI_HOST := "https://swapi.dev";
     SWAPI_PAGE_SIZE := VUndefined;
     upstream := World.table_upstream table;
     latency := fun _ _ => 40%N;
     StringToNumber := World.decimal 0;
     ToString := World.show;
     localeCompare := World.compare_code_units |}.

(** Two planets on two pages of one; the second page is answered with
    status 404. *)
Definition broken_planets_table : list (string * fetch_result) :=
  [("https://swapi.dev/api/planets?page=1", World.page 2 [World.planet "Tatooine" ["u/1"]]);
   ("https://swapi.dev/api/planets?page=2", World.not_found);
   ("u/1", World.named "Luke Skywalker")].

(** The first page of three people is served; the second is unreachable. *)
Definition unreachable_table : list (string * fetch_result) :=
  [("https://swapi.dev/api/people?page=1", World.page 3 [World.luke; World.c3po])].

(** Two people of the same height. *)
Definition tarkin : value := World.person "Wilhuff Tarkin" "180".
Definition solo : value := World.person "Han Solo" "180".

(** Two people, one of them [null]: a collection that cannot be sorted. *)
Definition unsortable_table : list (string * fetch_result) :=
  [("https://swapi.dev/api/people?page=1", World.page 2 [World.luke; VNull])].

(** * Properties *)

(** ** The monad *)

Lemma bind_ok {A B} (m : M A) (k : A -> M B) s a s' :
  m s = (Ok a, s') -> bind m k s = k a s'.
Proof. intros H. unfold bind. now rewrite H. Qed.

Lemma bind_lift_ok {A B} (r : result A) (k : A -> M B) s a :
  r = Ok a -> bind (lift r) k s = k a s.
Proof. intros ->. reflexivity. Qed.

(** To show that a computation returns a value with a property, run it. *)
Lemma returns_by_running {A} (m : M A) s (P : A -> state -> Prop) :
  match m s with
  | (Ok a, s') => P a s'
  | (Throw _, _) => False
  end ->
  exists a s', m s = (Ok a, s') /\ P a s'.
Proof. destruct (m s) as [[a|e] s']; [eauto | tauto]. Qed.

(** ** Batches of upstream requests *)

Section Requests.

Context (E : environment).

Lemma answers_length log urls : length (answers E log urls) = length urls.
Proof. revert log. induction urls; intros; simpl; auto. Qed.

Lemma answers_lookup log urls j url :
  urls !! j = Some url ->
  answers E log urls !! j = Some (upstream E (log ++ take j urls) url).
Proof.
  revert log j. induction urls as [|u urls IH]; intros log j H; [done|].
  destruct j as [|j]; simpl in *.
  - inversion H; subst. now rewrite app_nil_r.
  - rewrite (IH _ _ H). now rewrite <- app_assoc.
Qed.

(** A batch of fetches logs its requests in order and touches neither the
    cache nor the arrays. *)
Lemma mapM_fetch {A} (url_of : A -> value) (l : list A) s :
  exists s',
    mapM (fun x => fetch E (url_of x)) l s = (Ok (answers E (log s) (map url_of l)), s')
    /\ log s' = log s ++ map url_of l
    /\ cache s' = cache s /\ heap s' = heap s /\ clock s <= clock s'.
Proof.
  revert s. induction l as [|x l IH]; intros s; simpl.
  - exists s. rewrite app_nil_r. repeat split; auto. lia.
  - unfold bind at 1. simpl.
    set (s1 := set_clock _ _).
    destruct (IH s1) as (s' & Hrun & Hlog & Hcache & Hheap & Hclock).
    exists s'. unfold bind. rewrite Hrun. simpl.
    subst s1; simpl in *. rewrite Hlog, <- app_assoc. repeat split; auto. lia.
Qed.

End Requests.

(** ** Objects *)

Lemma obj_get_set_eq k v o : obj_get k (obj_set k v o) = v.
Proof.
  induction o as [|[k' v'] o IH]; simpl.
  - now rewrite String.eqb_refl.
  - destruct (String.eqb k k') eqn:Hk; simpl; rewrite Hk; auto.
Qed.

Lemma obj_get_set_ne k k' v o : k' <> k -> obj_get k' (obj_set k v o) = obj_get k' o.
Proof.
  intros Hne. induction o as [|[k0 v0] o IH]; simpl.
  - apply String.eqb_neq in Hne. now rewrite Hne.
  - destruct (String.eqb k k0) eqn:Hk; simpl.
    + apply String.eqb_eq in Hk. subst k0.
      apply String.eqb_neq in Hne. now rewrite Hne.
    + now rewrite IH.
Qed.

Lemma obj_set_keys k v o :
  obj_get k o <> VUndefined -> map fst (obj_set k v o) = map fst o.
Proof.
  induction o as [|[k0 v0] o IH]; simpl; [congruence|].
  destruct (String.eqb k k0) eqn:Hk; simpl; [reflexivity|].
  intros H. now rewrite IH.
Qed.

(** ** The cross-reference resolver *)

Lemma has_residents_object planet :
  has_residents planet -> exists o, planet = VObj o.
Proof.
  intros [urls H]. destruct planet; simpl in H; try discriminate; eauto.
Qed.

Lemma has_residents_links planet :
  has_residents planet -> get_prop planet "residents" = Ok (VArr (links_of planet)).
Proof. intros [urls H]. unfold links_of. now rewrite H. Qed.

Lemma flatMap_residents_tagged i planets :
  Forall has_residents planets ->
  flatMap_residents i planets = Ok (tagged i (map links_of planets)).
Proof.
  intros H. revert i. induction H as [|planet planets Hp _ IH]; intros i; simpl.
  - reflexivity.
  - unfold resident_urls. rewrite (has_residents_links _ Hp). simpl.
    now rewrite IH.
Qed.

Lemma group_chunk c i acc j :
  group_get (fold_left group_step (map (pair i) c) acc) j =
  if decide (j = i) then group_get acc i ++ c else group_get acc j.
Proof.
  revert acc. induction c as [|x c IH]; intros acc; simpl.
  - case_decide; subst; now rewrite ?app_nil_r.
  - rewrite IH. unfold group_step, group_get; simpl.
    case_decide; subst.
    + rewrite lookup_insert_eq. simpl. now rewrite <- app_assoc.
    + now rewrite lookup_insert_ne.
Qed.

Lemma group_tagged chunks i acc j :
  group_get (fold_left group_step (tagged i chunks) acc) j =
  if decide (j < i)%nat then group_get acc j
  else group_get acc j ++ default [] (chunks !! (j - i)%nat).
Proof.
  revert i acc. induction chunks as [|c chunks IH]; intros i acc; simpl.
  - case_decide; now rewrite ?app_nil_r.
  - rewrite fold_left_app, IH, group_chunk.
    repeat case_decide; subst; try lia; auto.
    + replace (i - i)%nat with 0%nat by lia. reflexivity.
    + replace (j - i)%nat with (S (j - S i)) by lia. reflexivity.
Qed.

Section Resolver.

Context (E : environment).

Lemma resolved_names_lookup log chunks i c :
  chunks !! i = Some c ->
  resolved_names E log chunks !! i =
    Some (map resident_name (answers E (log ++ concat (take i chunks)) c)).
Proof.
  revert log i. induction chunks as [|c0 chunks IH]; intros log i H; [done|].
  destruct i as [|i]; simpl in *.
  - inversion H; subst. now rewrite app_nil_r.
  - rewrite (IH _ _ H). now rewrite <- app_assoc.
Qed.

Lemma resolved_names_length log chunks :
  length (resolved_names E log chunks) = length chunks.
Proof. revert log. induction chunks; intros; simpl; auto. Qed.

Lemma mapM_resident_chunk i c s :
  exists s',
    mapM (resident_promise E) (map (pair i) c) s =
      (Ok (map (pair i) (map resident_name (answers E (log s) c))), s')
    /\ log s' = log s ++ c /\ cache s' = cache s /\ heap s' = heap s
    /\ clock s <= clock s'.
Proof.
  revert s. induction c as [|url c IH]; intros s; simpl.
  - exists s. rewrite app_nil_r. repeat split; auto. lia.
  - unfold bind at 1. unfold resident_promise at 1. unfold bind at 1. simpl.
    set (s1 := set_clock _ _).
    destruct (IH s1) as (s' & Hrun & Hlog & Hcache & Hheap & Hclock).
    exists s'. unfold bind. rewrite Hrun. simpl.
    subst s1; simpl in *. rewrite Hlog, <- app_assoc. repeat split; auto. lia.
Qed.

Lemma mapM_app {A B} (f : A -> M B) l1 l2 s r1 s1 r2 s2 :
  mapM f l1 s = (Ok r1, s1) -> mapM f l2 s1 = (Ok r2, s2) ->
  mapM f (l1 ++ l2) s = (Ok (r1 ++ r2), s2).
Proof.
  revert s r1. induction l1 as [|x l1 IH]; intros s r1 H1 H2; simpl in *.
  - inversion H1; subst. exact H2.
  - unfold bind in *. destruct (f x s) as [[y|e] s0]; [|discriminate].
    destruct (mapM f l1 s0) as [[ys|e] s0'] eqn:Hl1; [|discriminate].
    inversion H1; subst. now rewrite (IH _ _ Hl1 H2).
Qed.

Lemma mapM_resident_tagged chunks i s :
  exists s',
    mapM (resident_promise E) (tagged i chunks) s =
      (Ok (tagged i (resolved_names E (log s) chunks)), s')
    /\ log s' = log s ++ concat chunks /\ cache s' = cache s /\ heap s' = heap s
    /\ clock s <= clock s'.
Proof.
  revert i s. induction chunks as [|c chunks IH]; intros i s; simpl.
  - exists s. rewrite app_nil_r. repeat split; auto. lia.
  - destruct (mapM_resident_chunk i c s) as (s1 & H1 & Hl1 & Hc1 & Hh1 & Ht1).
    destruct (IH (S i) s1) as (s2 & H2 & Hl2 & Hc2 & Hh2 & Ht2).
    exists s2. rewrite (mapM_app _ _ _ _ _ _ _ _ H1 H2).
    rewrite Hl1. rewrite Hl2, Hl1, <- app_assoc. repeat split; congruence || lia.
Qed.

(** What the resolver computes on records that carry their links. *)
Lemma resolver_result planets s :
  Forall has_residents planets ->
  exists s',
    fetchResidentsWithErrorHandling E (VArr planets) s =
      (Ok (VArr (zip_with with_residents
                   (resolved_names E (log s) (map links_of planets)) planets)), s')
    /\ log s' = log s ++ concat (map links_of planets)
    /\ cache s' = cache s /\ heap s' = heap s /\ clock s <= clock s'.
Proof.
  intros Hwf. unfold fetchResidentsWithErrorHandling.
  rewrite (bind_lift_ok _ _ _ _ (flatMap_residents_tagged 0 planets Hwf)).
  destruct (mapM_resident_tagged (map links_of planets) 0 s)
    as (s' & Hrun & Hlog & Hcache & Hheap & Hclock).
  exists s'. rewrite (bind_ok _ _ _ _ _ Hrun). unfold ret.
  repeat split; auto.
  do 3 f_equal.
  set (names := resolved_names E (log s) (map links_of planets)).
  assert (Hlen : length names = length planets).
  { subst names. now rewrite resolved_names_length, length_map. }
  apply list_eq. intros i.
  rewrite list_lookup_imap, lookup_zip_with.
  destruct (planets !! i) as [planet|] eqn:Hp; simpl.
  - destruct (names !! i) as [ns|] eqn:Hn; simpl.
    + unfold with_residents. do 4 f_equal.
      pose proof (group_tagged names 0 ∅ i) as Hg.
      unfold group_get in Hg. rewrite Hg.
      case_decide; [lia|]. rewrite lookup_empty. simpl.
      replace (i - 0)%nat with i by lia. now rewrite Hn.
    + apply lookup_ge_None in Hn. apply lookup_lt_Some in Hp. lia.
  - now destruct (names !! i).
Qed.

End Resolver.

Section ResolverClaims.

Context (E : environment).

Lemma with_residents_get names planet :
  get_prop (with_residents names planet) "residents" = Ok (VArr names).
Proof. unfold with_residents. simpl. now rewrite obj_get_set_eq. Qed.

Lemma with_residents_other names planet k :
  has_residents planet -> k <> "residents" ->
  get_prop (with_residents names planet) k = get_prop planet k.
Proof.
  intros Hp Hk. destruct (has_residents_object _ Hp) as [o ->].
  unfold with_residents. simpl. now rewrite obj_get_set_ne.
Qed.

Lemma with_residents_keys names planet :
  has_residents planet ->
  map fst (own_properties (with_residents names planet)) = map fst (own_properties planet).
Proof.
  intros Hp. destruct (has_residents_object _ Hp) as [o ->].
  destruct Hp as [urls Hp]. simpl in *.
  apply obj_set_keys. inversion Hp as [Hget]. rewrite Hget. discriminate.
Qed.

(** The resolver on records that carry their links: it returns, and record
    [i] comes back with the names its own requests yielded. *)
Lemma resolver_record planets s :
  Forall has_residents planets ->
  exists resolved s',
    fetchResidentsWithErrorHandling E (VArr planets) s = (Ok (VArr resolved), s')
    /\ log s' = log s ++ concat (map links_of planets)
    /\ cache s' = cache s
    /\ length resolved = length planets
    /\ forall i planet, planets !! i = Some planet ->
         resolved !! i =
           Some (with_residents
                   (map resident_name
                      (answers E (log s ++ concat (map links_of (take i planets)))
                         (links_of planet)))
                   planet).
Proof.
  intros Hwf.
  destruct (resolver_result E planets s Hwf) as (s' & Hrun & Hlog & Hcache & _ & _).
  eexists _, s'. split; [exact Hrun|]. split; [exact Hlog|]. split; [exact Hcache|].
  split.
  - rewrite length_zip_with, resolved_names_length, length_map. lia.
  - intros i planet Hp. rewrite lookup_zip_with, Hp.
    assert (Hc : map links_of planets !! i = Some (links_of planet))
      by now rewrite list_lookup_fmap, Hp.
    rewrite (resolved_names_lookup E _ _ _ _ Hc). simpl.
    now rewrite firstn_map.
Qed.

Lemma requests_for_app T l1 l2 :
  requests_for T (l1 ++ l2) = (requests_for T l1 + requests_for T l2)%nat.
Proof. unfold requests_for. now rewrite List.filter_app, length_app. Qed.

Lemma requests_for_links T planets :
  requests_for T (concat (map links_of planets)) = occurrences T planets.
Proof.
  induction planets as [|planet planets IH]; simpl; [reflexivity|].
  now rewrite requests_for_app, IH.
Qed.

(** C1 (as amended): nothing is deduplicated.  On planet records that carry
    their resident links, the resolver issues one upstream request per
    occurrence of a link, record by record and in the order of each list: a
    token occurring [k] times across all records is requested exactly [k]
    times. *)
Theorem resolver_requests_every_occurrence planets s :
  Forall has_residents planets ->
  exists v s' new,
    fetchResidentsWithErrorHandling E (VArr planets) s = (Ok v, s')
    /\ log s' = log s ++ new
    /\ new = concat (map links_of planets)
    /\ forall T, requests_for T new = occurrences T planets.
Proof.
  intros Hwf.
  destruct (resolver_record planets s Hwf) as (resolved & s' & Hrun & Hlog & _).
  exists (VArr resolved), s', (concat (map links_of planets)).
  repeat split; auto. intros T. apply requests_for_links.
Qed.

(** C4: the resolver never fails on planet records that carry their resident
    links, whichever lookups fail; a link whose lookup failed (transport
    error or non-success status) comes back as ["Unknown"] at the position
    the link had in its record. *)
Theorem resolver_never_fails planets s :
  Forall has_residents planets ->
  exists resolved s',
    fetchResidentsWithErrorHandling E (VArr planets) s = (Ok (VArr resolved), s')
    /\ length resolved = length planets
    /\ forall i planet j url,
         planets !! i = Some planet ->
         links_of planet !! j = Some url ->
         lookup_failed
           (upstream E (log s ++ concat (map links_of (take i planets))
                          ++ take j (links_of planet)) url) ->
         exists planet' names,
           resolved !! i = Some planet'
           /\ get_prop planet' "residents" = Ok (VArr names)
           /\ names !! j = Some (VStr "Unknown").
Proof.
  intros Hwf.
  destruct (resolver_record planets s Hwf)
    as (resolved & s' & Hrun & _ & _ & Hlen & Hrec).
  exists resolved, s'. repeat split; auto.
  intros i planet j url Hp Hj Hfail.
  eexists _, _. split; [exact (Hrec _ _ Hp)|].
  split; [apply with_residents_get|].
  rewrite list_lookup_fmap, (answers_lookup E _ _ _ _ Hj). simpl.
  rewrite <- app_assoc.
  destruct Hfail as [-> | [body ->]]; reflexivity.
Qed.

(** C6: for every planet record the resolver processes, the resolved list
    has the length of the original link list and holds at each position the
    name resolved for the link at that position; every other field of the
    record, and the order of its fields, is unchanged. *)
Theorem resolver_replaces_links_in_place planets s :
  Forall has_residents planets ->
  exists resolved s',
    fetchResidentsWithErrorHandling E (VArr planets) s = (Ok (VArr resolved), s')
    /\ length resolved = length planets
    /\ forall i planet, planets !! i = Some planet ->
         exists planet' names,
           resolved !! i = Some planet'
           /\ get_prop planet' "residents" = Ok (VArr names)
           /\ length names = length (links_of planet)
           /\ (forall j url, links_of planet !! j = Some url ->
                 names !! j =
                   Some (resident_name
                           (upstream E (log s ++ concat (map links_of (take i planets))
                                          ++ take j (links_of planet)) url)))
           /\ (forall k, k <> "residents" -> get_prop planet' k = get_prop planet k)
           /\ map fst (own_properties planet') = map fst (own_properties planet).
Proof.
  intros Hwf.
  destruct (resolver_record planets s Hwf)
    as (resolved & s' & Hrun & _ & _ & Hlen & Hrec).
  exists resolved, s'. repeat split; auto.
  intros i planet Hp.
  assert (Hhas : has_residents planet).
  { rewrite Forall_forall in Hwf. apply Hwf.
    eapply list_elem_of_lookup_2; eauto. }
  eexists _, _. split; [exact (Hrec _ _ Hp)|].
  split; [apply with_residents_get|].
  split; [now rewrite length_map, answers_length|].
  split; [|split].
  - intros j url Hj.
    rewrite list_lookup_fmap, (answers_lookup E _ _ _ _ Hj). simpl.
    now rewrite <- app_assoc.
  - intros k Hk. now apply with_residents_other.
  - now apply with_residents_keys.
Qed.

End ResolverClaims.


(** ** The full-collection fetcher *)

Lemma flat_arrays (pages : list (list value)) : flat (map VArr pages) = concat pages.
Proof.
  unfold flat. induction pages as [|p pages IH]; simpl; [reflexivity|].
  now rewrite <- IH.
Qed.

Lemma full_pages_length ps (full : list (list value)) :
  Forall (fun page => Z.of_nat (length page) = ps) full ->
  Z.of_nat (length (concat full)) = ps * Z.of_nat (length full).
Proof.
  induction 1 as [|p full Hp _ IH]; simpl; [lia|].
  rewrite length_app. lia.
Qed.

(** The number of pages the fetcher computes from the reported count is the
    number of pages of the collection. *)
Lemma page_count ps pages :
  0 < ps -> paginated ps pages ->
  let count := Z.of_nat (length (concat pages)) in
  (count = 0 /\ length pages = 1%nat)
  \/ (0 < count /\ - (- count / ps) = Z.of_nat (length pages)).
Proof.
  intros Hps (full & final & -> & Hfull & Hfinal & Hne). simpl.
  rewrite concat_app, !length_app. simpl. rewrite app_nil_r.
  pose proof (full_pages_length ps full Hfull) as Hlen.
  destruct (Nat.eq_dec (length final) 0%nat) as [Hz|Hnz].
  - left. destruct full as [|p full].
    + simpl. split; lia.
    + exfalso. apply Hne; [discriminate|]. now destruct final.
  - right. split; [lia|].
    rewrite Nat2Z.inj_add, Hlen.
    replace (- (ps * Z.of_nat (length full) + Z.of_nat (length final)))
      with ((- Z.of_nat (length final)) + (- Z.of_nat (length full)) * ps) by lia.
    rewrite Z.div_add by lia.
    assert (- Z.of_nat (length final) / ps = -1).
    { symmetry. apply (Z.div_unique _ _ _ (ps - Z.of_nat (length final))); lia. }
    lia.
Qed.

Section Fetcher.

Context (E : environment).

Lemma remaining_pages_served endpoint rest k0 log :
  (forall log j page, rest !! j = Some page ->
     exists ok envelope,
       upstream E log (page_url E endpoint (Z.of_nat (k0 + j) + 2))
         = Response ok (Some envelope)
       /\ get_prop envelope "results" = Ok (VArr page)) ->
  exists responses data,
    rmap settled
      (answers E log (map (fun i => page_url E endpoint (Z.of_nat i + 2))
                        (seq k0 (length rest)))) = Ok responses
    /\ rmap json responses = Ok data
    /\ rmap (fun page => get_prop page "results") data = Ok (map VArr rest).
Proof.
  revert k0 log. induction rest as [|page rest IH]; intros k0 log Hup; simpl.
  - exists [], []. auto.
  - destruct (Hup log 0%nat page eq_refl) as (ok & envelope & Hfetch & Hres).
    rewrite Nat.add_0_r in Hfetch. rewrite Hfetch. simpl.
    destruct (IH (S k0) (log ++ [page_url E endpoint (Z.of_nat k0 + 2)]))
      as (responses & data & H1 & H2 & H3).
    { intros log' j page' Hj. destruct (Hup log' (S j) page' Hj) as (ok' & b' & Hf' & Hr').
      exists ok', b'. split; [|exact Hr'].
      replace (Z.of_nat (S k0 + j) + 2) with (Z.of_nat (k0 + S j) + 2) by lia.
      exact Hf'. }
    rewrite H1. simpl.
    exists ((ok, Some envelope) :: responses), (envelope :: data).
    split; [reflexivity|]. simpl. rewrite H2. simpl. split; [reflexivity|].
    now rewrite Hres, H3.
Qed.

(** C3: when the upstream serves a collection cut into N >= 1 pages of the
    configured page size and reports its total count, [fetchAllPages]
    returns exactly the concatenation of the pages, in page order and in
    each page's order, which has [count] records; it requests each page
    once. *)
Theorem fetchAllPages_returns_whole_collection endpoint pageSize count pages s :
  ToNumber E (SWAPI_PAGE_SIZE E) = Fin pageSize ->
  0 < pageSize ->
  paginated pageSize pages ->
  Z.of_nat (length pages) <= 4294967296 ->
  count = Z.of_nat (length (concat pages)) ->
  serves E endpoint count pages ->
  exists records s',
    fetchAllPages E endpoint s = (Ok (VArr records), s')
    /\ records = concat pages
    /\ Z.of_nat (length records) = count
    /\ log s' = log s ++ map (fun k => page_url E endpoint (Z.of_nat k + 1))
                           (seq 0 (length pages)).
Proof.
  intros Hsize Hps Hpag Hmax Hcount Hup.
  pose proof (page_count pageSize pages Hps Hpag) as Hpages. simpl in Hpages.
  rewrite <- Hcount in Hpages.
  destruct pages as [|first rest].
  { destruct Hpag as (full & final & Hnil & _). now destruct full. }
  destruct (Hup (log s) 0%nat first eq_refl) as (ok & envelope & Hfetch & Hres & Hcnt).
  specialize (Hcnt eq_refl). change (Z.of_nat 0 + 1) with 1 in Hfetch.
  enough (Hrun : exists v s', fetchAllPages E endpoint s = (Ok v, s')
            /\ (v = VArr (concat (first :: rest))
                /\ log s' = log s ++ map (fun k => page_url E endpoint (Z.of_nat k + 1))
                                       (seq 0 (length (first :: rest))))).
  { destruct Hrun as (v & s' & Hrun & -> & Hlog). eauto 10. }
  apply returns_by_running.
  unfold fetchAllPages. unfold bind at 1. unfold fetch at 1.
  set (s1 := set_clock _ _).
  rewrite Hfetch. simpl settled.
  rewrite (bind_lift_ok _ _ _ _ eq_refl).
  change (json (ok, Some envelope)) with (@Ok value envelope).
  rewrite (bind_lift_ok _ _ _ _ eq_refl).
  rewrite (bind_lift_ok _ _ _ _ Hcnt).
  rewrite (bind_lift_ok _ _ _ _ Hres).
  rewrite Hsize. change (ToNumber E (VNum count)) with (Fin count).
  assert (Hrem : num_pred (ceil_div (Fin count) (Fin pageSize))
                 = Fin (- (- count / pageSize) - 1)).
  { unfold ceil_div. destruct (Z.eqb_spec pageSize 0); [lia|reflexivity]. }
  rewrite Hrem. unfold num_pos.
  destruct Hpages as [[Hzero Hone] | [Hpos Hceil]].
  - (* an empty collection: one empty page *)
    rewrite Hzero. simpl.
    destruct rest; [|discriminate]. simpl. now rewrite app_nil_r.
  - rewrite Hceil.
    replace (Z.of_nat (length (first :: rest)) - 1) with (Z.of_nat (length rest))
      by (simpl; lia).
    destruct (Nat.eq_dec (length rest) 0%nat) as [Hnone|Hsome].
    + destruct rest; [|discriminate]. simpl. now rewrite app_nil_r.
    + assert (Hgt : (0 <? Z.of_nat (length rest)) = true) by (apply Z.ltb_lt; lia).
      rewrite Hgt. unfold array_indices.
      assert (Hle : (Z.of_nat (length rest) <=? 4294967295) = true)
        by (apply Z.leb_le; simpl in Hmax; lia).
      rewrite Hle, Nat2Z.id.
      rewrite (bind_lift_ok _ _ _ _ eq_refl).
      destruct (mapM_fetch E (fun i => page_url E endpoint (Z.of_nat i + 2))
                  (seq 0 (length rest)) s1)
        as (s2 & Hrun & Hlog & _).
      rewrite (bind_ok _ _ _ _ _ Hrun).
      destruct (remaining_pages_served endpoint rest 0 (log s1))
        as (responses & data & H1 & H2 & H3).
      { intros log' j page Hj.
        destruct (Hup log' (S j) page Hj) as (ok' & b' & Hf' & Hr' & _).
        exists ok', b'. split; [|exact Hr'].
        replace (Z.of_nat (0 + j) + 2) with (Z.of_nat (S j) + 1) by lia. exact Hf'. }
      rewrite (bind_lift_ok _ _ _ _ H1), (bind_lift_ok _ _ _ _ H2).
      simpl spread.
      rewrite (bind_lift_ok _ _ _ _ eq_refl), (bind_lift_ok _ _ _ _ H3).
      unfold ret. rewrite flat_arrays. split; [reflexivity|].
      rewrite Hlog. subst s1. simpl log. rewrite <- app_assoc. simpl.
      do 2 f_equal. rewrite <- seq_shift, map_map.
      apply map_ext. intros k.
      now replace (Z.of_nat (S k) + 1) with (Z.of_nat k + 2) by lia.
Qed.

End Fetcher.

(** ** Insertion sort *)

Section InsertionSort.

Context {A : Type} (cmp : A -> A -> result Z).

Lemma insert_sorted_perm x l r : insert_sorted cmp x l = Ok r -> r ≡ₚ x :: l.
Proof.
  revert r. induction l as [|y l IH]; intros r; simpl.
  - intros [= <-]. reflexivity.
  - destruct (cmp x y) as [c|e]; simpl; [|discriminate].
    destruct (c <=? 0).
    + intros [= <-]. reflexivity.
    + destruct (insert_sorted cmp x l) as [r'|e]; simpl; [|discriminate].
      intros [= <-]. rewrite (IH r' eq_refl). apply Permutation_swap.
Qed.

Lemma insertion_sort_perm l r : insertion_sort cmp l = Ok r -> r ≡ₚ l.
Proof.
  revert r. induction l as [|x l IH]; intros r; simpl.
  - intros [= <-]. reflexivity.
  - destruct (insertion_sort cmp l) as [r'|e]; simpl; [|discriminate].
    intros H. rewrite (insert_sorted_perm _ _ _ H). now rewrite (IH r' eq_refl).
Qed.

Context (P : A -> Prop).
Hypothesis cmp_defined : forall x y, P x -> P y -> exists c, cmp x y = Ok c.

Lemma insert_sorted_defined x l :
  P x -> Forall P l -> exists r, insert_sorted cmp x l = Ok r.
Proof.
  intros Hx. induction 1 as [|y l Hy _ IH]; simpl; [eauto|].
  destruct (cmp_defined x y Hx Hy) as [c ->]. simpl.
  destruct (c <=? 0); [eauto|].
  destruct IH as [r ->]. simpl. eauto.
Qed.

Lemma insertion_sort_defined l :
  Forall P l -> exists r, insertion_sort cmp l = Ok r.
Proof.
  induction 1 as [|x l Hx Hl IH]; simpl; [eauto|].
  destruct IH as [r Hr]. rewrite Hr. simpl.
  apply insert_sorted_defined; [exact Hx|].
  now rewrite (insertion_sort_perm _ _ Hr).
Qed.

End InsertionSort.

(** Sorting pairs on one component sorts that component the same way. *)
Section Projection.

Context {A B : Type} (f : B -> A) (cmp : A -> A -> result Z).

Lemma insert_sorted_map x l :
  insert_sorted cmp (f x) (map f l) =
  match insert_sorted (compare_on f cmp) x l with
  | Ok r => Ok (map f r)
  | Throw e => Throw e
  end.
Proof.
  induction l as [|y l IH]; simpl; [reflexivity|].
  unfold compare_on at 1. destruct (cmp (f x) (f y)) as [c|e]; simpl; [|reflexivity].
  destruct (c <=? 0); [reflexivity|].
  rewrite IH. now destruct (insert_sorted (compare_on f cmp) x l).
Qed.

Lemma insertion_sort_map l :
  insertion_sort cmp (map f l) =
  match insertion_sort (compare_on f cmp) l with
  | Ok r => Ok (map f r)
  | Throw e => Throw e
  end.
Proof.
  induction l as [|x l IH]; simpl; [reflexivity|].
  rewrite IH. destruct (insertion_sort (compare_on f cmp) l) as [r|e]; simpl; [|reflexivity].
  apply insert_sorted_map.
Qed.

End Projection.

(** Stability, on elements that carry their input position. *)
Section Stability.

Context {A : Type} (cmp : A -> A -> result Z).

Lemma insert_sorted_kept x l r :
  insert_sorted (compare_on snd cmp) x l = Ok r ->
  Forall (fun y => (fst x < fst y)%nat) l ->
  ForallOrdPairs (kept_in_order cmp) l ->
  ForallOrdPairs (kept_in_order cmp) r.
Proof.
  revert r. induction l as [|y l IH]; intros r; simpl.
  - intros [= <-] _ _. repeat constructor.
  - unfold compare_on at 1.
    destruct (cmp (snd x) (snd y)) as [c|e] eqn:Hc; simpl; [|discriminate].
    intros Hr Hlt Hl.
    apply Forall_cons in Hlt as [Hxy Hlt].
    inversion Hl as [|? ? Hy Hl']; subst.
    destruct (Z.leb_spec c 0) as [Hle|Hgt].
    + injection Hr as <-. constructor; [|exact Hl].
      apply List.Forall_forall. intros z Hz Hzx.
      rewrite Forall_forall in Hlt.
      assert (fst x < fst z)%nat; [|lia].
      destruct Hz as [<-|Hz]; [exact Hxy|]. apply Hlt. now apply list_elem_of_In.
    + destruct (insert_sorted (compare_on snd cmp) x l) as [r'|e] eqn:Hins;
        simpl in Hr; [|discriminate].
      injection Hr as <-. constructor; [|now apply IH].
      apply List.Forall_forall. intros z Hz.
      apply (Permutation_in _ (insert_sorted_perm _ _ _ _ Hins)) in Hz.
      destruct Hz as [<-|Hz].
      * intros _ c' Hc'. rewrite Hc in Hc'. injection Hc' as <-. exact Hgt.
      * rewrite List.Forall_forall in Hy. now apply Hy.
Qed.

Lemma enumerate_above {B} k (l : list B) :
  Forall (fun y => (k <= fst y)%nat) (enumerate k l).
Proof.
  revert k. induction l as [|x l IH]; intros k; simpl; constructor; simpl; [lia|].
  eapply Forall_impl; [apply (IH (S k))|]. simpl. intros; lia.
Qed.

Lemma insertion_sort_kept k l r :
  insertion_sort (compare_on snd cmp) (enumerate k l) = Ok r ->
  ForallOrdPairs (kept_in_order cmp) r.
Proof.
  revert k r. induction l as [|x l IH]; intros k r; simpl.
  - intros [= <-]. constructor.
  - destruct (insertion_sort (compare_on snd cmp) (enumerate (S k) l)) as [r'|e] eqn:Hr';
      simpl; [|discriminate].
    intros Hr. eapply insert_sorted_kept; [exact Hr| |eapply IH; eauto].
    rewrite (insertion_sort_perm _ _ _ Hr'). simpl.
    eapply Forall_impl; [apply enumerate_above|]. simpl. intros; lia.
Qed.

End Stability.

Lemma enumerate_snd {A} k (l : list A) : map snd (enumerate k l) = l.
Proof. revert k. induction l; intros; simpl; f_equal; auto. Qed.

Lemma enumerate_fst {A} k (l : list A) : map fst (enumerate k l) = seq k (length l).
Proof. revert k. induction l; intros; simpl; f_equal; auto. Qed.

Lemma enumerate_elem {A} k (l : list A) i a :
  (i, a) ∈ enumerate k l -> exists j, i = (k + j)%nat /\ l !! j = Some a.
Proof.
  revert k. induction l as [|x l IH]; intros k; simpl.
  - intros H. inversion H.
  - intros H. apply elem_of_cons in H as [[= -> ->]|H].
    + exists 0%nat. split; [lia|reflexivity].
    + destruct (IH _ H) as (j & -> & Hj). exists (S j). split; [lia|exact Hj].
Qed.

Lemma ordered_pairs_lookup {A} (R : A -> A -> Prop) l p q x y :
  ForallOrdPairs R l -> l !! p = Some x -> l !! q = Some y -> (p < q)%nat -> R x y.
Proof.
  intros H. revert p q. induction H as [|a l Ha _ IH]; intros p q Hp Hq Hpq; [done|].
  destruct q as [|q]; [lia|]. simpl in Hq.
  destruct p as [|p]; simpl in Hp.
  - injection Hp as ->. rewrite List.Forall_forall in Ha. apply Ha.
    apply list_elem_of_In. eapply list_elem_of_lookup_2; eauto.
  - apply (IH p q); auto. lia.
Qed.

(** ** The sort stage *)

Section SortStage.

Context (E : environment).

Lemma has_string_field_defined k v : has_string_field k v -> is_undefined v = false.
Proof. intros [s H]. now destruct v. Qed.

Lemma filter_defined k l :
  Forall (has_string_field k) l ->
  List.filter (fun v => negb (is_undefined v)) l = l /\ List.filter is_undefined l = [].
Proof.
  induction 1 as [|v l Hv _ [IH1 IH2]]; simpl; [auto|].
  rewrite (has_string_field_defined _ _ Hv). simpl. now rewrite IH1, IH2.
Qed.

(** On records whose sort field is a string, a comparison is
    [localeCompare] on the two strings, in the order the direction asks
    for. *)
Lemma compare_people_strings sortBy sortOrder a b sa sb :
  get_prop a (to_string E sortBy) = Ok (VStr sa) ->
  get_prop b (to_string E sortBy) = Ok (VStr sb) ->
  compare_people E sortBy sortOrder a b =
    Ok (if is_string "asc" sortOrder then localeCompare E sa sb else localeCompare E sb sa).
Proof.
  intros Ha Hb. unfold compare_people, field_compare.
  destruct (is_string "asc" sortOrder); rewrite ?Ha, ?Hb; simpl; rewrite ?Ha, ?Hb;
    reflexivity.
Qed.

Lemma compare_people_defined sortBy sortOrder a b :
  has_string_field (to_string E sortBy) a -> has_string_field (to_string E sortBy) b ->
  exists c, compare_people E sortBy sortOrder a b = Ok c.
Proof.
  intros [sa Ha] [sb Hb]. eexists. eapply compare_people_strings; eassumption.
Qed.

(** The sort stage on an array of sortable records: the array is sorted
    where it is, and the reference that comes back is the one that went in.
    [r] is the sorted array with every record next to its input position. *)
Lemma sort_stage_in_place sortBy sortOrder p records s :
  heap s !! p = Some records ->
  Forall (has_string_field (to_string E sortBy)) records ->
  exists r,
    insertion_sort (compare_on snd (compare_people E sortBy sortOrder))
      (enumerate 0 records) = Ok r
    /\ sort_stage E sortBy sortOrder (Arr p) s =
         (Ok (Arr p), set_heap (<[p := map snd r]> (heap s)) s).
Proof.
  intros Hp Hwf.
  destruct (insertion_sort_defined (compare_people E sortBy sortOrder)
              (has_string_field (to_string E sortBy))
              (compare_people_defined sortBy sortOrder) records Hwf) as [sorted Hsorted].
  pose proof (insertion_sort_map snd (compare_people E sortBy sortOrder)
                (enumerate 0 records)) as Hmap.
  rewrite enumerate_snd, Hsorted in Hmap.
  destruct (insertion_sort _ (enumerate 0 records)) as [r|e]; [|discriminate].
  injection Hmap as ->.
  exists r. split; [reflexivity|].
  unfold sort_stage, Array_sort, sort_values. rewrite Hp. simpl.
  destruct (filter_defined _ _ Hwf) as [-> ->].
  rewrite Hsorted. simpl. now rewrite app_nil_r.
Qed.

(** The sort stage reads and writes nothing but the array. *)
Lemma sort_stage_frame sortBy sortOrder people s :
  let s' := snd (sort_stage E sortBy sortOrder people s) in
  cache s' = cache s /\ log s' = log s /\ clock s' = clock s.
Proof.
  unfold sort_stage, Array_sort. destruct people as [p|v]; simpl; [|auto].
  destruct (sort_values _ _); simpl; auto.
Qed.

End SortStage.

(** ** Sortedness *)

(** With a comparator that is consistent on the elements at hand - what it
    puts after, it would not put before, and its order is transitive -
    insertion sort sorts. *)
Section Sortedness.

Context {A : Type} (cmp : A -> A -> result Z) (P : A -> Prop).

Hypothesis cmp_flip :
  forall a b c, P a -> P b -> cmp a b = Ok c -> 0 < c -> in_order cmp b a.
Hypothesis cmp_trans :
  forall a b c, P a -> P b -> P c ->
                in_order cmp a b -> in_order cmp b c -> in_order cmp a c.

Lemma insert_sorted_sorted x l r :
  P x -> Forall P l ->
  insert_sorted cmp x l = Ok r ->
  StronglySorted (in_order cmp) l -> StronglySorted (in_order cmp) r.
Proof.
  intros Hx Hl. revert r. induction Hl as [|y l Hy Hl IH]; intros r; simpl.
  - intros [= <-] _. repeat constructor.
  - destruct (cmp x y) as [c|e] eqn:Hc; simpl; [|discriminate].
    intros Hr Hs. apply StronglySorted_inv in Hs as [Hs Hall].
    destruct (Z.leb_spec c 0) as [Hle|Hgt].
    + injection Hr as <-.
      assert (Hxy : in_order cmp x y) by (exists c; auto).
      constructor; [now constructor|]. constructor; [exact Hxy|].
      rewrite Forall_forall in Hall, Hl |- *. intros z Hz.
      apply (cmp_trans x y z); auto.
    + destruct (insert_sorted cmp x l) as [r'|e] eqn:Hins; simpl in Hr; [|discriminate].
      injection Hr as <-. constructor; [now apply IH|].
      rewrite (insert_sorted_perm _ _ _ _ Hins). constructor; [|exact Hall].
      now apply (cmp_flip x y c).
Qed.

Lemma insertion_sort_sorted l r :
  Forall P l -> insertion_sort cmp l = Ok r -> StronglySorted (in_order cmp) r.
Proof.
  intros Hl. revert r. induction Hl as [|x l Hx Hl IH]; intros r; simpl.
  - intros [= <-]. constructor.
  - destruct (insertion_sort cmp l) as [r'|e] eqn:Hr'; simpl; [|discriminate].
    intros Hr. apply (insert_sorted_sorted x r' r Hx); [|exact Hr|now apply IH].
    now rewrite (insertion_sort_perm _ _ _ Hr').
Qed.

End Sortedness.

Lemma strongly_sorted_lookup {A} (R : A -> A -> Prop) l i j a b :
  StronglySorted R l -> l !! i = Some a -> l !! j = Some b -> (i < j)%nat -> R a b.
Proof.
  intros H. revert i j. induction H as [|x l _ IH Hall]; intros i j Hi Hj Hij; [done|].
  destruct j as [|j]; [lia|]. simpl in Hj. destruct i as [|i]; simpl in Hi.
  - injection Hi as ->. rewrite Forall_forall in Hall.
    apply Hall. eapply list_elem_of_lookup_2; eauto.
  - apply (IH i j); auto. lia.
Qed.

Section SortStageSorted.

Context (E : environment).

Hypothesis localeCompare_flip :
  forall a b, 0 < localeCompare E a b -> localeCompare E b a <= 0.
Hypothesis localeCompare_trans :
  forall a b c, localeCompare E a b <= 0 -> localeCompare E b c <= 0 ->
                localeCompare E a c <= 0.

(** On sortable records, with a consistent [localeCompare], the sort stage
    leaves the array in order: no record stands before one the comparator
    puts first. *)
Lemma sort_stage_sorted sortBy sortOrder p records s :
  heap s !! p = Some records ->
  Forall (has_string_field (to_string E sortBy)) records ->
  exists sorted,
    sort_stage E sortBy sortOrder (Arr p) s =
      (Ok (Arr p), set_heap (<[p := sorted]> (heap s)) s)
    /\ forall i j a b,
         sorted !! i = Some a -> sorted !! j = Some b -> (i < j)%nat ->
         in_order (compare_people E sortBy sortOrder) a b.
Proof.
  intros Hp Hwf.
  destruct (insertion_sort_defined (compare_people E sortBy sortOrder)
              (has_string_field (to_string E sortBy))
              (compare_people_defined E sortBy sortOrder) records Hwf) as [sorted Hsorted].
  exists sorted. split.
  - unfold sort_stage, Array_sort, sort_values. rewrite Hp. simpl.
    destruct (filter_defined _ _ Hwf) as [-> ->].
    rewrite Hsorted. simpl. now rewrite app_nil_r.
  - intros i j a b. apply strongly_sorted_lookup.
    apply (insertion_sort_sorted _ (has_string_field (to_string E sortBy)))
      with (l := records); auto.
    + intros x y c [sx Hx] [sy Hy] Hc Hpos.
      rewrite (compare_people_strings E _ _ _ _ _ _ Hx Hy) in Hc. injection Hc as <-.
      eexists. split; [apply (compare_people_strings E _ _ _ _ _ _ Hy Hx)|].
      destruct (is_string "asc" sortOrder); now apply localeCompare_flip.
    + intros x y z [sx Hx] [sy Hy] [sz Hz] (c1 & Hc1 & Hle1) (c2 & Hc2 & Hle2).
      rewrite (compare_people_strings E _ _ _ _ _ _ Hx Hy) in Hc1. injection Hc1 as <-.
      rewrite (compare_people_strings E _ _ _ _ _ _ Hy Hz) in Hc2. injection Hc2 as <-.
      eexists. split; [apply (compare_people_strings E _ _ _ _ _ _ Hx Hz)|].
      destruct (is_string "asc" sortOrder); eauto using localeCompare_trans.
Qed.

End SortStageSorted.

(** ** Computations that only talk to the upstream *)

Lemma set_cache_heap_same s : set_cache (cache s) (set_heap (heap s) s) = s.
Proof. now destruct s. Qed.

Lemma upstream_only_frame {A} (m : M A) s :
  upstream_only m -> cache (snd (m s)) = cache s /\ heap (snd (m s)) = heap s.
Proof.
  intros Hm. specialize (Hm (cache s) (heap s) s).
  rewrite set_cache_heap_same in Hm. apply (f_equal snd) in Hm. simpl in Hm.
  split; rewrite Hm; reflexivity.
Qed.

Lemma upstream_only_ret {A} (a : A) : upstream_only (ret a).
Proof. intros c h s. reflexivity. Qed.

Lemma upstream_only_throw {A} e : upstream_only (@throw A e).
Proof. intros c h s. reflexivity. Qed.

Lemma upstream_only_lift {A} (r : result A) : upstream_only (lift r).
Proof. intros c h s. reflexivity. Qed.

Lemma upstream_only_bind {A B} (m : M A) (k : A -> M B) :
  upstream_only m -> (forall a, upstream_only (k a)) -> upstream_only (bind m k).
Proof.
  intros Hm Hk c h s. unfold bind. rewrite Hm.
  destruct (m s) as [[a|e] s1]; simpl; [apply Hk|reflexivity].
Qed.

Lemma upstream_only_fetch E url : upstream_only (fetch E url).
Proof. intros c h s. reflexivity. Qed.

Lemma upstream_only_mapM {A B} (f : A -> M B) l :
  (forall x, upstream_only (f x)) -> upstream_only (mapM f l).
Proof.
  intros Hf. induction l as [|x l IH]; simpl.
  - apply upstream_only_ret.
  - apply upstream_only_bind; [apply Hf|]. intros y.
    apply upstream_only_bind; [apply IH|]. intros ys. apply upstream_only_ret.
Qed.

Lemma upstream_only_fetchAllPages E endpoint : upstream_only (fetchAllPages E endpoint).
Proof.
  unfold fetchAllPages.
  repeat first
    [ apply upstream_only_bind; [|intros ?]
    | apply upstream_only_mapM; intros ?
    | apply upstream_only_fetch
    | apply upstream_only_lift
    | apply upstream_only_ret
    | match goal with |- upstream_only (if ?b then _ else _) => destruct b end ].
Qed.

Lemma upstream_only_resolver E planets :
  upstream_only (fetchResidentsWithErrorHandling E planets).
Proof.
  unfold fetchResidentsWithErrorHandling.
  destruct planets; try apply upstream_only_throw.
  apply upstream_only_bind; [apply upstream_only_lift|]. intros urls.
  apply upstream_only_bind; [|intros; apply upstream_only_ret].
  apply upstream_only_mapM. intros entry. unfold resident_promise.
  apply upstream_only_bind; [apply upstream_only_fetch|].
  intros r. apply upstream_only_ret.
Qed.

Lemma upstream_only_cycle E : upstream_only (fetch_and_resolve E).
Proof.
  unfold fetch_and_resolve. apply upstream_only_bind.
  - apply upstream_only_fetchAllPages.
  - intros v. apply upstream_only_resolver.
Qed.

(** The resolver returns nothing but arrays. *)
Lemma resolver_returns_array E planets s v s' :
  fetchResidentsWithErrorHandling E planets s = (Ok v, s') -> exists l, v = VArr l.
Proof.
  unfold fetchResidentsWithErrorHandling. destruct planets; try discriminate.
  unfold bind, lift, ret.
  destruct (flatMap_residents 0 elems); [|discriminate].
  destruct (mapM _ _ _) as [[r|e] s1]; [|discriminate].
  intros [= <- _]. eauto.
Qed.

(** ** The steps of the handlers *)

Lemma bind_assoc {A B C} (m : M A) (f : A -> M B) (g : B -> M C) s :
  bind (bind m f) g s = bind m (fun x => bind (f x) g) s.
Proof. unfold bind. now destruct (m s) as [[a|e] s1]. Qed.

Lemma bind_cong {A B} (m1 m2 : M A) (k : A -> M B) s :
  m1 s = m2 s -> bind m1 k s = bind m2 k s.
Proof. intros H. unfold bind. now rewrite H. Qed.

Lemma set_heap_as_frame h s : set_heap h s = set_cache (cache s) (set_heap h s).
Proof. reflexivity. Qed.

Lemma cached_or_empty_hit key expiresAt records s :
  cache s !! key = Some (expiresAt, VArr records) -> clock s <= expiresAt ->
  cached_or_empty key s =
    (Ok (Arr (fresh (dom (heap s)))),
     set_heap (<[fresh (dom (heap s)) := records]> (heap s)) s).
Proof.
  intros Hc Ht. unfold cached_or_empty, bind, cache_get. rewrite Hc.
  destruct (Z.ltb_spec expiresAt (clock s)); [lia|]. reflexivity.
Qed.

Lemma cached_or_empty_nothing key s :
  nothing_cached key s ->
  cached_or_empty key s =
    (Ok (Arr (fresh (dom (heap s)))),
     set_heap (<[fresh (dom (heap s)) := []]> (heap s)) s).
Proof.
  intros [Hnone | (t & v & Hc & [Hexp | ->])];
    unfold cached_or_empty, bind, cache_get; rewrite ?Hnone, ?Hc.
  - reflexivity.
  - destruct (Z.ltb_spec t (clock s)); [|lia]. reflexivity.
  - destruct (t <? clock s); reflexivity.
Qed.

Lemma deref_array p records s :
  heap s !! p = Some records -> deref (Arr p) s = (Ok (VArr records), s).
Proof. intros H. unfold deref. now rewrite H. Qed.

Lemma length_of_array p records s :
  heap s !! p = Some records ->
  length_of (Arr p) s = (Ok (VNum (Z.of_nat (length records))), s).
Proof.
  intros H. unfold length_of. now rewrite (bind_ok _ _ _ _ _ (deref_array _ _ _ H)).
Qed.

Lemma is_zero_length (records : list value) :
  is_zero (VNum (Z.of_nat (length records))) = bool_decide (records = []).
Proof. destruct records; reflexivity. Qed.

(** The end of both handlers: the count is the length of the array that is
    sent. *)
Lemma respond_collection p records s :
  heap s !! p = Some records ->
  (count <- length_of (Arr p);
   results <- deref (Arr p);
   respond 200 (VObj [("count", count); ("results", results)])) s =
  (Ok (ok_response records), s).
Proof.
  intros H.
  rewrite (bind_ok _ _ _ _ _ (length_of_array _ _ _ H)).
  now rewrite (bind_ok _ _ _ _ _ (deref_array _ _ _ H)).
Qed.

(** Storing a fetched collection: the handler keeps a new array, the cache
    a copy of it that expires in five minutes. *)
Lemma populate key records s :
  let p := fresh (dom (heap s)) in
  (people <- alloc (VArr records);
   exec cache_set key people 300;
   ret people) s =
  (Ok (Arr p),
   set_cache (<[key := (clock s + 300 * 1000, VArr records)]> (cache s))
     (set_heap (<[p := records]> (heap s)) s)).
Proof.
  intros p. unfold bind, alloc, alloc_array, cache_set, bind, deref, ret. simpl.
  fold p. now rewrite lookup_insert_eq.
Qed.

(** ** The [/planets] endpoint *)

Section Planets.

Context (E : environment).

(** A live, non-empty entry is served as it is; nothing but the handler's
    own array changes. *)
Lemma get_planets_hit expiresAt planets s :
  cache s !! "PLANETS" = Some (expiresAt, VArr planets) ->
  planets <> [] -> clock s <= expiresAt ->
  exists h, get_planets E s = (Ok (ok_response planets), set_heap h s).
Proof.
  intros Hc Hne Ht. eexists. unfold get_planets, try_catch.
  rewrite (bind_ok _ _ _ _ _ (cached_or_empty_hit _ _ _ _ Hc Ht)).
  set (p := fresh (dom (heap s))). set (s0 := set_heap _ s).
  assert (Hp : heap s0 !! p = Some planets) by apply lookup_insert_eq.
  rewrite (bind_ok _ _ _ _ _ (length_of_array _ _ _ Hp)).
  rewrite is_zero_length, bool_decide_eq_false_2 by exact Hne.
  rewrite (bind_ok (ret (Arr p)) _ s0 _ _ eq_refl).
  now rewrite (respond_collection _ _ _ Hp).
Qed.

(** With nothing usable in the cache, the handler runs one fetch-and-resolve
    cycle, and stores what the cycle returned. *)
Lemma get_planets_refetch s :
  nothing_cached "PLANETS" s ->
  match fetch_and_resolve E s with
  | (Ok resolved, s1) =>
      exists planets s2,
        resolved = VArr planets
        /\ get_planets E s = (Ok (ok_response planets), s2)
        /\ log s2 = log s1 /\ clock s2 = clock s1
        /\ cache s2 = <["PLANETS" := (clock s1 + 300 * 1000, VArr planets)]> (cache s)
  | (Throw _, s1) =>
      exists s2,
        get_planets E s = (Ok (error_response 500 "Internal server error"), s2)
        /\ log s2 = log s1 /\ clock s2 = clock s1
        /\ cache s2 = cache s
  end.
Proof.
  intros Hnothing.
  pose proof (upstream_only_frame (fetch_and_resolve E) s (upstream_only_cycle E))
    as [Hcache _].
  set (p := fresh (dom (heap s))). set (h0 := <[p := []]> (heap s)).
  assert (Hp : heap (set_heap h0 s) !! p = Some []) by apply lookup_insert_eq.
  assert (Hstep : get_planets E s =
            try_catch
              (bind (bind (fetch_and_resolve E)
                       (fun resolved =>
                          planets <- alloc resolved;
                          exec cache_set "PLANETS" planets 300;
                          ret planets))
                 (fun planets =>
                    count <- length_of planets;
                    results <- deref planets;
                    respond 200 (VObj [("count", count); ("results", results)])))
              (fun _ => respond 500 (VObj [("error", VStr "Internal server error")]))
              (set_heap h0 s)).
  { unfold get_planets, try_catch.
    rewrite (bind_ok _ _ _ _ _ (cached_or_empty_nothing _ _ Hnothing)).
    fold p. fold h0.
    rewrite (bind_ok _ _ _ _ _ (length_of_array _ _ _ Hp)).
    change (is_zero (VNum (Z.of_nat (length (@nil value))))) with true. cbv iota.
    erewrite bind_cong; [reflexivity|].
    unfold fetch_and_resolve. now rewrite bind_assoc. }
  destruct (fetch_and_resolve E s) as [[resolved|e] s1] eqn:Hcycle.
  all: rewrite Hstep; unfold try_catch; unfold bind at 1; unfold bind at 1.
  all: rewrite (set_heap_as_frame h0 s), (upstream_only_cycle E (cache s) h0 s), Hcycle.
  all: simpl fst; simpl snd.
  - assert (Harr : exists planets, resolved = VArr planets).
    { unfold fetch_and_resolve, bind in Hcycle.
      destruct (fetchAllPages E "planets" s) as [[fetched|e] s'] ; [|discriminate].
      eapply resolver_returns_array; eauto. }
    destruct Harr as [planets ->].
    simpl in Hcache.
    set (st := set_cache (cache s) (set_heap h0 s1)).
    rewrite (populate "PLANETS" planets st).
    set (s2 := set_cache _ (set_heap _ st)).
    exists planets, s2. split; [reflexivity|].
    assert (Hp2 : heap s2 !! fresh (dom (heap st)) = Some planets)
      by apply lookup_insert_eq.
    rewrite (respond_collection _ _ _ Hp2).
    repeat split.
  - simpl in Hcache. eexists. split; [reflexivity|]. simpl. auto.
Qed.

End Planets.

(** ** The [/people] endpoint *)

Section People.

Context (E : environment).

Lemma js_or_truthy v d : truthy v = true -> js_or v d = v.
Proof. intros H. unfold js_or. now rewrite H. Qed.

(** Validation comes first: a request that fails it is answered at once,
    in the state it arrived in. *)
Lemma get_people_invalid sortBy sortOrder s :
  includes VALID_SORT_BY (js_or sortBy (VStr "name")) = false
  \/ includes VALID_SORT_ORDER (js_or sortOrder (VStr "asc")) = false ->
  exists message, get_people E sortBy sortOrder s = (Ok (error_response 400 message), s).
Proof.
  intros H. unfold get_people, try_catch.
  destruct (includes VALID_SORT_BY (js_or sortBy (VStr "name"))); simpl.
  - destruct H as [H|H]; [discriminate|]. rewrite H. simpl. eauto.
  - eauto.
Qed.

(** What is left of the handler once the people are at hand. *)
Lemma sort_and_respond sortBy sortOrder p records s :
  heap s !! p = Some records ->
  try_catch
    (people <- sort_stage E sortBy sortOrder (Arr p);
     count <- length_of people;
     results <- deref people;
     respond 200 (VObj [("count", count); ("results", results)]))
    (fun _ => respond 500 (VObj [("error", VStr "Internal server error")])) s =
  match sort_values (compare_people E sortBy sortOrder) records with
  | Ok sorted => (Ok (ok_response sorted), set_heap (<[p := sorted]> (heap s)) s)
  | Throw _ => (Ok (error_response 500 "Internal server error"), s)
  end.
Proof.
  intros Hp. unfold try_catch, sort_stage, Array_sort. unfold bind at 1. rewrite Hp. simpl.
  destruct (sort_values _ records) as [sorted|e]; [|reflexivity].
  set (s1 := set_heap _ s).
  assert (Hp1 : heap s1 !! p = Some sorted) by apply lookup_insert_eq.
  now rewrite (respond_collection _ _ _ Hp1).
Qed.

Lemma try_catch_bind {A B} (m : M A) (k : A -> M B) (h : exn -> M B) s a s1 :
  m s = (Ok a, s1) -> try_catch (bind m k) h s = try_catch (k a) h s1.
Proof. intros H. unfold try_catch, bind. now rewrite H. Qed.

(** A valid request on a live, non-empty entry is answered from the copy the
    cache hands out; nothing but the handler's own array changes. *)
Lemma get_people_hit sortBy sortOrder expiresAt people s :
  includes VALID_SORT_BY (js_or sortBy (VStr "name")) = true ->
  includes VALID_SORT_ORDER (js_or sortOrder (VStr "asc")) = true ->
  cache s !! "PEOPLE" = Some (expiresAt, VArr people) ->
  people <> [] -> clock s <= expiresAt ->
  exists h,
    get_people E sortBy sortOrder s =
      (Ok match sort_values (compare_people E (js_or sortBy (VStr "name"))
                               (js_or sortOrder (VStr "asc"))) people with
          | Ok sorted => ok_response sorted
          | Throw _ => error_response 500 "Internal server error"
          end,
       set_heap h s).
Proof.
  intros Hby Horder Hc Hne Ht. unfold get_people. rewrite Hby, Horder. cbv beta iota zeta.
  change (negb true) with false. cbv iota.
  rewrite (try_catch_bind _ _ _ _ _ _ (cached_or_empty_hit _ _ _ _ Hc Ht)).
  set (p := fresh (dom (heap s))). set (s0 := set_heap _ s).
  assert (Hp : heap s0 !! p = Some people) by apply lookup_insert_eq.
  rewrite (try_catch_bind _ _ _ _ _ _ (length_of_array _ _ _ Hp)).
  rewrite is_zero_length, bool_decide_eq_false_2 by exact Hne.
  rewrite (try_catch_bind (ret (Arr p)) _ _ s0 _ _ eq_refl).
  rewrite (sort_and_respond _ _ _ _ _ Hp).
  destruct (sort_values _ people); eexists; reflexivity.
Qed.

(** Storing whatever the fetch returned. *)
Lemma populate_value key v s :
  exists r h,
    (people <- alloc v;
     exec cache_set key people 300;
     ret people) s =
    (Ok r, set_cache (<[key := (clock s + 300 * 1000, v)]> (cache s)) (set_heap h s))
    /\ match v with
       | VArr records => exists p, r = Arr p /\ h !! p = Some records
       | _ => r = Prim v
       end.
Proof.
  destruct v as [| |b|z|str|records|fields].
  6: { eexists _, _. rewrite (populate key records s). split; [reflexivity|].
       eexists. split; [reflexivity|]. apply lookup_insert_eq. }
  all: eexists (Prim _), (heap s); split; [|reflexivity].
  all: now destruct s.
Qed.

(** With nothing usable in the cache, a valid request fetches the whole
    collection and stores what the fetch returned. *)
Lemma get_people_refetch sortBy sortOrder s :
  includes VALID_SORT_BY (js_or sortBy (VStr "name")) = true ->
  includes VALID_SORT_ORDER (js_or sortOrder (VStr "asc")) = true ->
  nothing_cached "PEOPLE" s ->
  match fetchAllPages E "people" s with
  | (Ok fetched, s1) =>
      exists s2,
        get_people E sortBy sortOrder s =
          (Ok match fetched with
              | VArr people =>
                  match sort_values (compare_people E (js_or sortBy (VStr "name"))
                                       (js_or sortOrder (VStr "asc"))) people with
                  | Ok sorted => ok_response sorted
                  | Throw _ => error_response 500 "Internal server error"
                  end
              | _ => error_response 500 "Internal server error"
              end, s2)
        /\ log s2 = log s1 /\ clock s2 = clock s1
        /\ cache s2 = <["PEOPLE" := (clock s1 + 300 * 1000, fetched)]> (cache s)
  | (Throw _, s1) =>
      exists s2,
        get_people E sortBy sortOrder s =
          (Ok (error_response 500 "Internal server error"), s2)
        /\ log s2 = log s1 /\ clock s2 = clock s1
        /\ cache s2 = cache s
  end.
Proof.
  intros Hby Horder Hnothing.
  pose proof (upstream_only_frame (fetchAllPages E "people") s
                (upstream_only_fetchAllPages E "people")) as [Hcache _].
  set (p := fresh (dom (heap s))). set (h0 := <[p := []]> (heap s)).
  assert (Hp : heap (set_heap h0 s) !! p = Some []) by apply lookup_insert_eq.
  destruct (fetchAllPages E "people" s) as [[fetched|e] s1] eqn:Hfetch.
  all: unfold get_people; rewrite Hby, Horder; cbv beta iota zeta.
  all: change (negb true) with false; cbv iota.
  all: rewrite (try_catch_bind _ _ _ _ _ _ (cached_or_empty_nothing _ _ Hnothing)).
  all: fold p; fold h0.
  all: rewrite (try_catch_bind _ _ _ _ _ _ (length_of_array _ _ _ Hp)).
  all: change (is_zero (VNum (Z.of_nat (length (@nil value))))) with true; cbv iota.
  all: unfold try_catch at 1; unfold bind at 1; unfold bind at 1.
  all: rewrite (set_heap_as_frame h0 s),
         (upstream_only_fetchAllPages E "people" (cache s) h0 s), Hfetch.
  all: simpl fst; simpl snd; simpl in Hcache.
  - set (st := set_cache (cache s) (set_heap h0 s1)).
    destruct (populate_value "PEOPLE" fetched st) as (r & h & Hpop & Hr).
    rewrite Hpop.
    set (s2 := set_cache _ (set_heap h st)) in *.
    pose proof (sort_and_respond (js_or sortBy (VStr "name"))
                  (js_or sortOrder (VStr "asc"))) as Htail.
    unfold try_catch in Htail.
    destruct fetched; try (subst r; eexists; split; [reflexivity|]; repeat split).
    destruct Hr as (q & -> & Hq).
    rewrite (Htail q elems s2) by exact Hq.
    destruct (sort_values _ elems); eexists; (split; [reflexivity|]); repeat split.
  - eexists. split; [reflexivity|]. repeat split.
Qed.

End People.

(** ** Claims about the sort stage *)

Section SortClaims.

Context (E : environment).

(** C2 (as amended): the sort stage does not produce a new sequence.  On an
    array of records whose sort field is a string it sorts that very array
    in place, into a permutation of what it held, and returns the reference
    it was given.  The collection stored in the cache is all the same not
    reordered by a sorted request: a [/people] request served from a live
    entry leaves the cache as it was, and one that has to fetch stores the
    collection as [fetchAllPages] returned it. *)
Theorem sort_stage_sorts_in_place :
  (forall sortBy sortOrder p records s,
     heap s !! p = Some records ->
     Forall (has_string_field (to_string E sortBy)) records ->
     exists sorted,
       sort_stage E sortBy sortOrder (Arr p) s =
         (Ok (Arr p), set_heap (<[p := sorted]> (heap s)) s)
       /\ sorted ≡ₚ records)
  /\ (forall sortBy sortOrder expiresAt people s,
        cache s !! "PEOPLE" = Some (expiresAt, VArr people) ->
        people <> [] -> clock s <= expiresAt ->
        cache (snd (get_people E sortBy sortOrder s)) = cache s)
  /\ (forall sortBy sortOrder s fetched s1,
        valid_request (GetPeople sortBy sortOrder) ->
        nothing_cached "PEOPLE" s ->
        fetchAllPages E "people" s = (Ok fetched, s1) ->
        cache (snd (get_people E sortBy sortOrder s)) =
          <["PEOPLE" := (clock s1 + 300 * 1000, fetched)]> (cache s)).
Proof.
  split; [|split].
  - intros sortBy sortOrder p records s Hp Hwf.
    destruct (sort_stage_in_place E sortBy sortOrder p records s Hp Hwf)
      as (r & Hr & Hrun).
    exists (map snd r). split; [exact Hrun|].
    rewrite (insertion_sort_perm _ _ _ Hr). now rewrite enumerate_snd.
  - intros sortBy sortOrder expiresAt people s Hc Hne Ht.
    destruct (includes VALID_SORT_BY (js_or sortBy (VStr "name"))) eqn:Hby.
    + destruct (includes VALID_SORT_ORDER (js_or sortOrder (VStr "asc"))) eqn:Horder.
      * destruct (get_people_hit E _ _ _ _ _ Hby Horder Hc Hne Ht) as [h ->].
        reflexivity.
      * destruct (get_people_invalid E sortBy sortOrder s (or_intror Horder)) as [m ->].
        reflexivity.
    + destruct (get_people_invalid E sortBy sortOrder s (or_introl Hby)) as [m ->].
      reflexivity.
  - intros sortBy sortOrder s fetched s1 [Hby Horder] Hnothing Hfetch.
    pose proof (get_people_refetch E sortBy sortOrder s Hby Horder Hnothing) as Hre.
    rewrite Hfetch in Hre. now destruct Hre as (s2 & -> & _ & _ & Hcache).
Qed.

(** C9: the sort stage is a stable sort on the string of the selected
    field.  On an array of records whose sort field is a string, whatever
    the field and the direction: records are compared by [localeCompare] on
    the strings of that field; the array ends up holding its records in the
    order [order], a permutation of the input positions; two records whose
    fields compare equal keep the relative order they had in the input; and,
    [localeCompare] being consistent (what it puts after, it does not put
    before, and its order is transitive), the array ends up sorted: of any
    two of its records, the earlier one's field does not compare after the
    later one's for [asc], and the other way round for any other direction.
    Being a sorted permutation that keeps ties in place, the result is the
    one a stable sort gives. *)
Theorem sort_stage_is_stable sortBy sortOrder p records s :
  heap s !! p = Some records ->
  Forall (has_string_field (to_string E sortBy)) records ->
  exists sorted order,
    sort_stage E sortBy sortOrder (Arr p) s =
      (Ok (Arr p), set_heap (<[p := sorted]> (heap s)) s)
    /\ order ≡ₚ seq 0 (length records)
    /\ length sorted = length order
    /\ (forall pos i, order !! pos = Some i -> sorted !! pos = records !! i)
    /\ (forall a b sa sb,
          get_prop a (to_string E sortBy) = Ok (VStr sa) ->
          get_prop b (to_string E sortBy) = Ok (VStr sb) ->
          compare_people E sortBy sortOrder a b =
            Ok (if is_string "asc" sortOrder then localeCompare E sa sb
                else localeCompare E sb sa))
    /\ (forall pos1 pos2 i j a b,
          order !! pos1 = Some i -> order !! pos2 = Some j ->
          records !! i = Some a -> records !! j = Some b ->
          (i < j)%nat ->
          compare_people E sortBy sortOrder a b = Ok 0 ->
          (pos1 < pos2)%nat)
    /\ ((forall x y, 0 < localeCompare E x y -> localeCompare E y x <= 0) ->
        (forall x y z, localeCompare E x y <= 0 -> localeCompare E y z <= 0 ->
                       localeCompare E x z <= 0) ->
        forall pos1 pos2 a b,
          sorted !! pos1 = Some a -> sorted !! pos2 = Some b ->
          (pos1 < pos2)%nat ->
          ordered_by E (to_string E sortBy) sortOrder a b).
Proof.
  intros Hp Hwf.
  destruct (sort_stage_in_place E sortBy sortOrder p records s Hp Hwf)
    as (r & Hr & Hrun).
  pose proof (insertion_sort_perm _ _ _ Hr) as Hperm.
  pose proof (insertion_sort_kept _ _ _ _ Hr) as Hkept.
  assert (Hin : forall pos i a, r !! pos = Some (i, a) -> records !! i = Some a).
  { intros pos i a Hpos.
    assert (Hel : (i, a) ∈ enumerate 0 records).
    { rewrite <- Hperm. eapply list_elem_of_lookup_2; eauto. }
    destruct (enumerate_elem _ _ _ _ Hel) as (j & -> & Hj). exact Hj. }
  exists (map snd r), (map fst r).
  split; [exact Hrun|].
  split; [now rewrite Hperm, enumerate_fst|].
  split; [now rewrite !length_map|].
  split; [|split; [|split]].
  - intros pos i Hpos. rewrite list_lookup_fmap in Hpos. rewrite list_lookup_fmap.
    destruct (r !! pos) as [[i' a]|] eqn:Hr'; simpl in Hpos; [|discriminate].
    injection Hpos as ->. simpl. symmetry. eapply Hin; eauto.
  - intros a b sa sb. apply compare_people_strings.
  - intros pos1 pos2 i j a b H1 H2 Ha Hb Hij Hcmp.
    rewrite list_lookup_fmap in H1, H2.
    destruct (r !! pos1) as [[i' a']|] eqn:Hr1; simpl in H1; [|discriminate].
    destruct (r !! pos2) as [[j' b']|] eqn:Hr2; simpl in H2; [|discriminate].
    injection H1 as ->. injection H2 as ->.
    pose proof (Hin _ _ _ Hr1) as Ha'. pose proof (Hin _ _ _ Hr2) as Hb'.
    assert (a' = a) by congruence. assert (b' = b) by congruence. subst a' b'.
    destruct (Nat.lt_trichotomy pos1 pos2) as [Hlt|[Heq|Hgt]]; [exact Hlt| |].
    + subst pos2. rewrite Hr1 in Hr2. assert (i = j) by congruence. lia.
    + pose proof (ordered_pairs_lookup _ _ _ _ _ _ Hkept Hr2 Hr1 Hgt) as Hk.
      unfold kept_in_order in Hk. simpl in Hk.
      specialize (Hk Hij 0 Hcmp). lia.
  - intros Hflip Htrans pos1 pos2 a b H1 H2 Hlt.
    destruct (sort_stage_sorted E Hflip Htrans sortBy sortOrder p records s Hp Hwf)
      as (sorted & Hrun' & Hord).
    assert (Hsame : sorted = map snd r).
    { rewrite Hrun in Hrun'. injection Hrun' as Hst.
      apply (f_equal (fun h : gmap loc (list value) => h !! p)) in Hst.
      rewrite !lookup_insert_eq in Hst. congruence. }
    subst sorted.
    destruct (Hord pos1 pos2 a b H1 H2 Hlt) as (c & Hc & Hle).
    assert (Hfield : forall pos x, map snd r !! pos = Some x ->
                                   has_string_field (to_string E sortBy) x).
    { intros pos x Hx. rewrite list_lookup_fmap in Hx.
      destruct (r !! pos) as [[i x']|] eqn:Hrp; simpl in Hx; [|discriminate].
      injection Hx as ->.
      exact (proj1 (Forall_lookup _ _) Hwf i x (Hin _ _ _ Hrp)). }
    destruct (Hfield _ _ H1) as [sa Ha]. destruct (Hfield _ _ H2) as [sb Hb].
    rewrite (compare_people_strings E _ _ _ _ _ _ Ha Hb) in Hc. injection Hc as <-.
    exists sa, sb. split; [exact Ha|]. split; [exact Hb|].
    destruct (is_string "asc" sortOrder); exact Hle.
Qed.

End SortClaims.

(** ** Claims about the endpoints *)

Section EndpointClaims.

Context (E : environment).

(** C7 (as amended): an absent or empty parameter takes its default; every
    request to [/people] whose [sortBy], once defaulted, is outside
    {name, height, mass}, or whose [sortOrder], once defaulted, is outside
    {asc, desc} - in particular every non-empty unlisted value - is
    answered with status 400 in the very state it arrived in: no upstream
    call, no cache population. *)
Theorem people_validates_before_io sortBy sortOrder s :
  (truthy sortBy = true /\ includes VALID_SORT_BY sortBy = false)
  \/ (truthy sortOrder = true /\ includes VALID_SORT_ORDER sortOrder = false) ->
  exists message,
    get_people E sortBy sortOrder s = (Ok (error_response 400 message), s).
Proof.
  intros H. apply get_people_invalid.
  destruct H as [[Ht Hi]|[Ht Hi]]; [left|right]; now rewrite js_or_truthy.
Qed.

Lemma elapsed_nonneg events : 0 <= elapsed events.
Proof. induction events as [|[ms|r] events IH]; simpl; lia. Qed.



End EndpointClaims.

(** ** Empty collections and the shape of responses *)

Section EmptyCollections.

Context (E : environment).







End EmptyCollections.

Section Shape.

Context (E : environment).

Lemma keeps_ret {A} (a : A) : keeps_planets (ret a).
Proof. intros s. reflexivity. Qed.

Lemma keeps_lift {A} (r : result A) : keeps_planets (lift r).
Proof. intros s. reflexivity. Qed.

Lemma keeps_bind {A B} (m : M A) (k : A -> M B) :
  keeps_planets m -> (forall a, keeps_planets (k a)) -> keeps_planets (bind m k).
Proof.
  intros Hm Hk s. unfold bind. specialize (Hm s).
  destruct (m s) as [[a|e] s1]; simpl in *; [|exact Hm].
  now rewrite Hk.
Qed.

Lemma keeps_try_catch {A} (m : M A) (h : exn -> M A) :
  keeps_planets m -> (forall e, keeps_planets (h e)) -> keeps_planets (try_catch m h).
Proof.
  intros Hm Hh s. unfold try_catch. specialize (Hm s).
  destruct (m s) as [[a|e] s1]; simpl in *; [exact Hm|].
  now rewrite Hh.
Qed.

Lemma keeps_upstream_only {A} (m : M A) : upstream_only m -> keeps_planets m.
Proof. intros Hm s. now destruct (upstream_only_frame m s Hm) as [-> _]. Qed.

Lemma keeps_alloc v : keeps_planets (alloc v).
Proof. intros s. now destruct v. Qed.

Lemma keeps_deref r : keeps_planets (deref r).
Proof. intros s. now destruct r. Qed.

Lemma keeps_length_of r : keeps_planets (length_of r).
Proof.
  unfold length_of. apply keeps_bind; [apply keeps_deref|]. intros v. apply keeps_lift.
Qed.

Lemma keeps_cached_or_empty key : keeps_planets (cached_or_empty key).
Proof.
  intros s. unfold cached_or_empty, bind, cache_get.
  destruct (cache s !! key) as [[t v]|]; [|reflexivity].
  destruct (t <? clock s); [reflexivity|].
  destruct v; simpl;
    repeat match goal with |- context [if ?b then _ else _] => destruct b end;
    reflexivity.
Qed.

Lemma keeps_cache_set_people r : keeps_planets (cache_set "PEOPLE" r 300).
Proof.
  intros s. unfold cache_set, bind. destruct r; simpl; now rewrite lookup_insert_ne.
Qed.

Lemma keeps_sort_stage sortBy sortOrder r : keeps_planets (sort_stage E sortBy sortOrder r).
Proof. intros s. now destruct (sort_stage_frame E sortBy sortOrder r s) as [-> _]. Qed.

Lemma keeps_respond code payload : keeps_planets (respond code payload).
Proof. intros s. reflexivity. Qed.

(** [/people] leaves the entry of [/planets] alone. *)
Lemma keeps_get_people sortBy sortOrder : keeps_planets (get_people E sortBy sortOrder).
Proof.
  unfold get_people.
  apply keeps_try_catch; [|intros; apply keeps_respond].
  destruct (negb _); [apply keeps_respond|].
  destruct (negb _); [apply keeps_respond|].
  apply keeps_bind; [apply keeps_cached_or_empty|]. intros people.
  apply keeps_bind; [apply keeps_length_of|]. intros len.
  apply keeps_bind.
  - destruct (is_zero len); [|apply keeps_ret].
    apply keeps_bind;
      [apply keeps_upstream_only, upstream_only_fetchAllPages|]. intros fetched.
    apply keeps_bind; [apply keeps_alloc|]. intros people'.
    apply keeps_bind; [apply keeps_cache_set_people|]. intros _. apply keeps_ret.
  - intros people'.
    apply keeps_bind; [apply keeps_sort_stage|]. intros sorted.
    apply keeps_bind; [apply keeps_length_of|]. intros count.
    apply keeps_bind; [apply keeps_deref|]. intros results. apply keeps_respond.
Qed.




(** [/planets] sends collections as long as it finds collections in the
    cache, and stores nothing else. *)
Lemma get_planets_shape s :
  planets_cached_as_array s ->
  counts_its_results (fst (get_planets E s))
  /\ planets_cached_as_array (snd (get_planets E s)).
Proof.
  intros Hinv.
  assert (Hcase : nothing_cached "PLANETS" s
                  \/ exists t l, cache s !! "PLANETS" = Some (t, VArr l)
                                 /\ l <> [] /\ clock s <= t).
  { destruct (cache s !! "PLANETS") as [[t v]|] eqn:Hc; [|now left; left].
    destruct (Hinv t v Hc) as [l ->].
    destruct (Z.lt_ge_cases t (clock s)); [left; right; eauto|].
    destruct l as [|x l]; [left; right; eauto|].
    right. exists t, (x :: l). repeat split; auto. }
  destruct Hcase as [Hnothing|(t & l & Hc & Hne & Ht)].
  - pose proof (get_planets_refetch E s Hnothing) as Hre.
    destruct (fetch_and_resolve E s) as [[resolved|e] s1].
    + destruct Hre as (planets & s2 & -> & -> & _ & _ & Hcache). simpl. split.
      * intros out [= <-] _. eauto.
      * intros t' v'. rewrite Hcache, lookup_insert_eq. intros [= _ <-]. eauto.
    + destruct Hre as (s2 & -> & _ & _ & Hcache). simpl. split.
      * intros out [= <-]. discriminate.
      * intros t' v'. rewrite Hcache. apply Hinv.
  - destruct (get_planets_hit E t l s Hc Hne Ht) as [h ->]. simpl. split.
    + intros out [= <-] _. eauto.
    + exact Hinv.
Qed.


End Shape.

Section CacheClaims.

Context (E : environment).


End CacheClaims.

(** ** Failing pages *)

Section FailingPages.

Context (E : environment).

Lemma settled_and_parsed requests responses data :
  rmap settled requests = Ok responses ->
  rmap json responses = Ok data ->
  Forall answered requests.
Proof.
  revert responses data.
  induction requests as [|r requests IH]; intros responses data; simpl.
  - constructor.
  - destruct r as [|ok body]; simpl; [discriminate|].
    destruct (rmap settled requests) as [rs|e]; simpl; [|discriminate].
    intros [= <-]. simpl. destruct body as [v|]; simpl; [|discriminate].
    destruct (rmap json rs) as [vs|e] eqn:Hvs; simpl; [|discriminate].
    intros _. constructor; [unfold answered; eauto|]. eapply IH; eauto.
Qed.

(** A page request that is rejected, or answered with a body that is not
    JSON, fails the whole fetch: when [fetchAllPages] returns, every request
    it issued was answered with a JSON body.  The status of the answer plays
    no part. *)
Lemma fetchAllPages_all_answered endpoint s v s' :
  fetchAllPages E endpoint s = (Ok v, s') ->
  exists issued,
    log s' = log s ++ issued
    /\ Forall answered (answers E (log s) issued).
Proof.
  unfold fetchAllPages. unfold bind at 1. unfold fetch at 1.
  set (url1 := page_url E endpoint 1). set (s1 := set_clock _ _).
  destruct (upstream E (log s) url1) as [|ok body] eqn:H1; [discriminate|].
  simpl settled. rewrite (bind_lift_ok _ _ _ _ eq_refl).
  destruct body as [data|]; [|discriminate].
  change (json (ok, Some data)) with (@Ok value data).
  rewrite (bind_lift_ok _ _ _ _ eq_refl).
  destruct (get_prop data "count") as [count|e]; [|discriminate].
  rewrite (bind_lift_ok _ _ _ _ eq_refl).
  destruct (get_prop data "results") as [results|e]; [|discriminate].
  rewrite (bind_lift_ok _ _ _ _ eq_refl).
  destruct (num_pos _).
  - destruct (array_indices _) as [indices|e]; [|discriminate].
    rewrite (bind_lift_ok _ _ _ _ eq_refl).
    destruct (mapM_fetch E (fun i => page_url E endpoint (Z.of_nat i + 2)) indices s1)
      as (s2 & Hrun & Hlog & _).
    rewrite (bind_ok _ _ _ _ _ Hrun).
    destruct (rmap settled _) as [responses|e] eqn:Hsettled; [|discriminate].
    rewrite (bind_lift_ok _ _ _ _ eq_refl).
    destruct (rmap json responses) as [pages|e] eqn:Hparsed; [|discriminate].
    pose proof (settled_and_parsed _ _ _ Hsettled Hparsed) as Hall.
    unfold bind, lift, ret.
    destruct (spread results); [|discriminate].
    destruct (rmap (fun page => get_prop page "results") pages); [|discriminate].
    intros [= _ <-].
    exists (url1 :: map (fun i => page_url E endpoint (Z.of_nat i + 2)) indices).
    split.
    + rewrite Hlog. subst s1. simpl. now rewrite <- app_assoc.
    + simpl. rewrite H1. constructor; [unfold answered; eauto|exact Hall].
  - intros [= _ <-]. exists [url1]. split; [reflexivity|].
    simpl. rewrite H1. repeat constructor. unfold answered; eauto.
Qed.

End FailingPages.

(** C5 (the code at the failing input): the second of two pages is answered
    with status 404 and a JSON error body.  [fetchAllPages] does not fail:
    it returns the records of the first page followed by [undefined], and
    [/people] answers 200 with that partial collection. *)
Theorem fetchAllPages_returns_partial_collection :
  fst (fetchAllPages (World.env "2" World.broken_table) "people" World.start)
    = Ok (VArr [World.luke; World.c3po; VUndefined])
  /\ fst (get_people (World.env "2" World.broken_table) VUndefined VUndefined World.start)
     = Ok (ok_response [World.c3po; World.luke; VUndefined]).
Proof. split; vm_compute; reflexivity. Qed.

(** ** The handlers always answer *)

Lemma try_catch_responds (m : M response) code payload s :
  exists out s', try_catch m (fun _ => respond code payload) s = (Ok out, s').
Proof. unfold try_catch. destruct (m s) as [[out|e] s']; simpl; eauto. Qed.

Lemma handle_responds E r s : exists out s', handle E r s = (Ok out, s').
Proof. destruct r; apply try_catch_responds. Qed.

(** ** The end-to-end scenarios *)

(** Three people on two pages: [/people] returns all of them, sorted by name
    in ascending order by default. *)
Example people_end_to_end :
  fst (get_people (World.env "2" World.people_table) VUndefined VUndefined World.start)
  = Ok (ok_response [World.c3po; World.vader; World.luke]).
Proof. vm_compute. reflexivity. Qed.

(** Sorting on [height] compares strings, in either direction. *)
Example people_by_height_descending :
  fst (get_people (World.env "2" World.people_table) (VStr "height") (VStr "desc")
         World.start)
  = Ok (ok_response [World.vader; World.luke; World.c3po]).
Proof. vm_compute. reflexivity. Qed.

(** A resident that resolves and one whose lookup fails: the names come back
    in the place of the links. *)
Example planets_end_to_end :
  fst (get_planets (World.env "10" World.planets_table) World.start)
  = Ok (ok_response World.two_planets_resolved).
Proof. vm_compute. reflexivity. Qed.

(** An unlisted sort field is refused, and nothing was asked upstream. *)
Example people_rejects_color :
  get_people (World.env "2" World.people_table) (VStr "color") VUndefined World.start
  = (Ok (error_response 400 "Invalid sortBy parameter"), World.start).
Proof. reflexivity. Qed.

(** ** Counterexamples *)

(** C1 (counterexample): two planets list the same resident; the resolver
    requests that resident twice. *)
Lemma resolver_requests_shared_link_twice :
  ~ fetched_once (World.env "10" World.planets_table) World.two_planets World.start.
Proof.
  intros H. destruct (H "u/1") as (v & s' & new & Hrun & Hlog & Hone).
  - simpl. lia.
  - vm_compute in Hrun. injection Hrun as _ <-.
    simpl in Hlog. subst new. vm_compute in Hone. discriminate.
Qed.

(** C2 (counterexample): sorting two people by name returns the array that
    was passed in, with its records swapped. *)
Lemma sort_stage_returns_its_input :
  ~ sorts_a_copy (World.env "10" []) (VStr "name") (VStr "asc") 1%positive
      (World.holding 1%positive [World.luke; World.c3po]).
Proof.
  intros (q & s' & Hrun & Hne & Hheap).
  vm_compute in Hrun. injection Hrun as <- _. now apply Hne.
Qed.

(** C7 (counterexample): [GET /people?sortBy=] carries the empty string,
    which is none of name, height and mass; the request is served, with a
    full upstream fetch. *)
Lemma people_accepts_empty_sortBy :
  ~ rejects_unlisted (World.env "2" World.people_table) (VStr EmptyString) VUndefined World.start.
Proof.
  intros H. destruct H as (out & Hrun & Hstatus).
  - left. split; [discriminate|reflexivity].
  - vm_compute in Hrun. injection Hrun as <- _. discriminate.
Qed.


(** ** The theorems at work on the concrete world *)

Lemma two_planets_have_residents : Forall has_residents World.two_planets.
Proof. repeat constructor; eexists; reflexivity. Defined.

Lemma people_pages_served :
  serves (World.env "2" World.people_table) "people" 3 World.people_pages.
Proof.
  intros log [|[|k]] page Hpage; simpl in Hpage; try discriminate;
    injection Hpage as <-; eexists _, _; (split; [vm_compute; reflexivity|]);
    (split; [reflexivity|]); intros; (reflexivity || discriminate).
Defined.


(** Comparison by code unit is a consistent order. *)
Lemma compare_code_units_flip a b :
  0 < World.compare_code_units a b -> World.compare_code_units b a <= 0.
Proof.
  unfold World.compare_code_units. rewrite (String.compare_antisym b a).
  destruct (String.compare a b); simpl; lia.
Qed.

Lemma compare_code_units_trans a b c :
  World.compare_code_units a b <= 0 -> World.compare_code_units b c <= 0 ->
  World.compare_code_units a c <= 0.
Proof.
  unfold World.compare_code_units.
  destruct (String.compare a b) eqn:Hab; [| |lia];
    (destruct (String.compare b c) eqn:Hbc; [| |lia]); intros _ _.
  - apply String.compare_eq_iff in Hab. subst b. now rewrite Hbc.
  - apply String.compare_eq_iff in Hab. subst b. now rewrite Hbc.
  - apply String.compare_eq_iff in Hbc. subst c. now rewrite Hab.
  - apply OrderedTypeEx.String_as_OT.cmp_lt in Hab, Hbc.
    pose proof (OrderedTypeEx.String_as_OT.lt_trans _ _ _ Hab Hbc) as Hac.
    apply OrderedTypeEx.String_as_OT.cmp_lt in Hac.
    unfold OrderedTypeEx.String_as_OT.cmp in Hac. now rewrite Hac.
Qed.

Lemma resolver_requests_every_occurrence_witness :
  Forall has_residents World.two_planets
  /\ exists v s' new,
       fetchResidentsWithErrorHandling (World.env "10" World.planets_table)
         (VArr World.two_planets) World.start = (Ok v, s')
       /\ log s' = log World.start ++ new
       /\ new = concat (map links_of World.two_planets)
       /\ forall T, requests_for T new = occurrences T World.two_planets.
Proof.
  split; [exact two_planets_have_residents|].
  apply resolver_requests_every_occurrence. exact two_planets_have_residents.
Defined.

Lemma resolver_never_fails_witness :
  Forall has_residents World.two_planets
  /\ exists resolved s',
       fetchResidentsWithErrorHandling (World.env "10" World.planets_table)
         (VArr World.two_planets) World.start = (Ok (VArr resolved), s')
       /\ length resolved = length World.two_planets
       /\ forall i planet j url,
            World.two_planets !! i = Some planet ->
            links_of planet !! j = Some url ->
            lookup_failed
              (upstream (World.env "10" World.planets_table)
                 (log World.start ++ concat (map links_of (take i World.two_planets))
                    ++ take j (links_of planet)) url) ->
            exists planet' names,
              resolved !! i = Some planet'
              /\ get_prop planet' "residents" = Ok (VArr names)
              /\ names !! j = Some (VStr "Unknown").
Proof.
  split; [exact two_planets_have_residents|].
  apply resolver_never_fails. exact two_planets_have_residents.
Defined.

Lemma resolver_replaces_links_in_place_witness :
  Forall has_residents World.two_planets
  /\ exists resolved s',
       fetchResidentsWithErrorHandling (World.env "10" World.planets_table)
         (VArr World.two_planets) World.start = (Ok (VArr resolved), s')
       /\ length resolved = length World.two_planets.
Proof.
  split; [exact two_planets_have_residents|].
  destruct (resolver_replaces_links_in_place (World.env "10" World.planets_table)
              World.two_planets World.start two_planets_have_residents)
    as (resolved & s' & Hrun & Hlen & _).
  exists resolved, s'. split; [exact Hrun|exact Hlen].
Defined.

Lemma fetchAllPages_returns_whole_collection_witness :
  exists records s',
    fetchAllPages (World.env "2" World.people_table) "people" World.start
      = (Ok (VArr records), s')
    /\ records = concat World.people_pages
    /\ Z.of_nat (length records) = 3
    /\ log s' = log World.start
                ++ map (fun k => page_url (World.env "2" World.people_table) "people"
                                   (Z.of_nat k + 1))
                     (seq 0 (length World.people_pages)).
Proof.
  apply (fetchAllPages_returns_whole_collection
           (World.env "2" World.people_table) "people" 2 3 World.people_pages World.start).
  - reflexivity.
  - lia.
  - exists [[World.luke; World.c3po]], [World.vader].
    split; [reflexivity|]. split; [repeat constructor|].
    split; [simpl; lia|]. intros _. discriminate.
  - simpl. lia.
  - reflexivity.
  - exact people_pages_served.
Defined.

Lemma sort_stage_sorts_in_place_witness :
  (exists sorted,
     sort_stage (World.env "10" []) (VStr "name") (VStr "asc") (Arr 1%positive)
       (World.holding 1%positive [World.luke; World.c3po])
     = (Ok (Arr 1%positive),
        set_heap (<[1%positive := sorted]>
                    (heap (World.holding 1%positive [World.luke; World.c3po])))
          (World.holding 1%positive [World.luke; World.c3po]))
     /\ sorted ≡ₚ [World.luke; World.c3po])
  /\ cache (snd (get_people (World.env "10" []) (VStr "name") (VStr "asc")
                   (World.caching "PEOPLE" 1000 [World.luke; World.c3po])))
     = cache (World.caching "PEOPLE" 1000 [World.luke; World.c3po])
  /\ cache (snd (get_people (World.env "2" World.people_table) (VStr "name") (VStr "desc")
                   World.start))
     = <["PEOPLE" := (80 + 300 * 1000, VArr [World.luke; World.c3po; World.vader])]>
         (cache World.start).
Proof.
  destruct (sort_stage_sorts_in_place (World.env "10" [])) as (Hsort & Hcache & _).
  destruct (sort_stage_sorts_in_place (World.env "2" World.people_table))
    as (_ & _ & Hstored).
  split; [|split].
  - apply Hsort; [reflexivity|]. repeat constructor; eexists; reflexivity.
  - apply (Hcache (VStr "name") (VStr "asc") 1000 [World.luke; World.c3po]).
    + reflexivity.
    + discriminate.
    + simpl. lia.
  - apply (Hstored (VStr "name") (VStr "desc") World.start
             (VArr [World.luke; World.c3po; World.vader])
             (snd (fetchAllPages (World.env "2" World.people_table) "people" World.start))).
    + split; reflexivity.
    + left. reflexivity.
    + vm_compute. reflexivity.
Defined.

Lemma sort_stage_is_stable_witness :
  exists sorted order,
    sort_stage (World.env "10" []) (VStr "height") (VStr "asc") (Arr 1%positive)
      (World.holding 1%positive [tarkin; World.luke; solo])
    = (Ok (Arr 1%positive),
       set_heap (<[1%positive := sorted]>
                   (heap (World.holding 1%positive [tarkin; World.luke; solo])))
         (World.holding 1%positive [tarkin; World.luke; solo]))
    /\ order ≡ₚ seq 0 3
    /\ length sorted = length order
    /\ (forall pos i, order !! pos = Some i ->
          sorted !! pos = [tarkin; World.luke; solo] !! i)
    /\ (forall pos1 pos2,
          order !! pos1 = Some 0%nat -> order !! pos2 = Some 2%nat ->
          (pos1 < pos2)%nat)
    /\ (forall pos1 pos2 a b,
          sorted !! pos1 = Some a -> sorted !! pos2 = Some b ->
          (pos1 < pos2)%nat ->
          ordered_by (World.env "10" []) "height" (VStr "asc") a b).
Proof.
  destruct (sort_stage_is_stable (World.env "10" []) (VStr "height") (VStr "asc")
              1%positive [tarkin; World.luke; solo]
              (World.holding 1%positive [tarkin; World.luke; solo]))
    as (sorted & order & Hrun & Hperm & Hlen & Hlookup & _ & Hties & Hordered).
  - reflexivity.
  - repeat constructor; eexists; reflexivity.
  - exists sorted, order.
    split; [exact Hrun|]. split; [exact Hperm|]. split; [exact Hlen|].
    split; [exact Hlookup|]. split.
    + intros pos1 pos2 H1 H2.
      apply (Hties pos1 pos2 0%nat 2%nat tarkin solo H1 H2);
        [reflexivity|reflexivity|lia|reflexivity].
    + exact (Hordered compare_code_units_flip compare_code_units_trans).
Defined.

Lemma people_validates_before_io_witness :
  exists message,
    get_people (World.env "2" World.people_table) (VStr "color") VUndefined World.start
    = (Ok (error_response 400 message), World.start).
Proof.
  apply people_validates_before_io. left. split; reflexivity.
Defined.



(** * Further properties *)

(** ** What [fetchAllPages] asks the upstream *)

Section FetcherRequests.

Context (E : environment).

Lemma array_indices_seq len indices :
  array_indices len = Ok indices -> exists m, indices = seq 0 m.
Proof.
  destruct len as [z| | |]; simpl.
  - destruct (z <=? 4294967295); [|discriminate]. intros [= <-]. eauto.
  - intros [= <-]. now exists 0%nat.
  - discriminate.
  - intros [= <-]. now exists 0%nat.
Qed.

Lemma first_pages_succ endpoint m :
  first_pages E endpoint (S m) =
  page_url E endpoint 1 :: map (fun i => page_url E endpoint (Z.of_nat i + 2)) (seq 0 m).
Proof.
  unfold first_pages. simpl. f_equal. rewrite <- seq_shift, map_map.
  apply map_ext. intros k. now replace (Z.of_nat (S k) + 1) with (Z.of_nat k + 2) by lia.
Qed.

(** Once the first page is in, what is left of [fetchAllPages]: the decision
    on the remaining pages, and their assembly. *)
Lemma fetchAllPages_after_first_page endpoint s :
  let s1 := snd (fetch E (page_url E endpoint 1) s) in
  exists m,
    log (snd (fetchAllPages E endpoint s)) = log s ++ first_pages E endpoint (S m).
Proof.
  intros s1. unfold fetchAllPages. unfold bind at 1. unfold fetch at 1.
  fold s1. set (url1 := page_url E endpoint 1).
  assert (H1 : log s1 = log s ++ first_pages E endpoint 1) by reflexivity.
  destruct (settled (upstream E (log s) url1)) as [initialRequest|e];
    [|exists 0%nat; exact H1].
  rewrite (bind_lift_ok _ _ _ _ eq_refl).
  destruct (json initialRequest) as [initialData|e]; [|exists 0%nat; exact H1].
  rewrite (bind_lift_ok _ _ _ _ eq_refl).
  destruct (get_prop initialData "count") as [count|e]; [|exists 0%nat; exact H1].
  rewrite (bind_lift_ok _ _ _ _ eq_refl).
  destruct (get_prop initialData "results") as [results|e]; [|exists 0%nat; exact H1].
  rewrite (bind_lift_ok _ _ _ _ eq_refl).
  destruct (num_pos _); [|exists 0%nat; exact H1].
  destruct (array_indices _) as [indices|e] eqn:Hind; [|exists 0%nat; exact H1].
  rewrite (bind_lift_ok _ _ _ _ eq_refl).
  destruct (array_indices_seq _ _ Hind) as [m ->].
  destruct (mapM_fetch E (fun i => page_url E endpoint (Z.of_nat i + 2)) (seq 0 m) s1)
    as (s2 & Hrun & Hlog & _).
  rewrite (bind_ok _ _ _ _ _ Hrun).
  exists m. rewrite first_pages_succ.
  assert (Hlog2 : log s2 = log s ++ url1 :: map (fun i => page_url E endpoint (Z.of_nat i + 2)) (seq 0 m)).
  { rewrite Hlog. subst s1. simpl. now rewrite <- app_assoc. }
  unfold bind, lift, ret.
  destruct (rmap settled _); [|exact Hlog2].
  destruct (rmap json _); [|exact Hlog2].
  destruct (spread results); [|exact Hlog2].
  destruct (rmap (fun page => get_prop page "results") _); exact Hlog2.
Qed.

(** X1: whatever the upstream answers and however it ends, [fetchAllPages]
    asks for page 1 and then for nothing but the pages that follow it, in
    order and each once; and it leaves the cache as it was. *)
Theorem fetchAllPages_asks_for_consecutive_pages endpoint s :
  exists n,
    (1 <= n)%nat
    /\ log (snd (fetchAllPages E endpoint s)) = log s ++ first_pages E endpoint n
    /\ cache (snd (fetchAllPages E endpoint s)) = cache s.
Proof.
  destruct (fetchAllPages_after_first_page endpoint s) as [m Hlog].
  exists (S m). split; [lia|]. split; [exact Hlog|].
  apply (upstream_only_frame (fetchAllPages E endpoint) s).
  apply upstream_only_fetchAllPages.
Qed.

End FetcherRequests.

(** ** The number of pages [fetchAllPages] asks for *)

Section FetcherPageCount.

Context (E : environment).

(** [fetchAllPages] once the first page is in: the remaining pages are
    decided by the count of the first page and the configured page size
    alone. *)
Lemma fetchAllPages_decision endpoint s ok envelope count results :
  upstream E (log s) (page_url E endpoint 1) = Response ok (Some envelope) ->
  get_prop envelope "count" = Ok count ->
  get_prop envelope "results" = Ok results ->
  let s1 := snd (fetch E (page_url E endpoint 1) s) in
  let remainingPages :=
    num_pred (ceil_div (ToNumber E count) (ToNumber E (SWAPI_PAGE_SIZE E))) in
  if num_pos remainingPages then
    match array_indices remainingPages with
    | Ok indices =>
        log (snd (fetchAllPages E endpoint s)) =
          log s1 ++ map (fun i => page_url E endpoint (Z.of_nat i + 2)) indices
    | Throw e => fetchAllPages E endpoint s = (Throw e, s1)
    end
  else fetchAllPages E endpoint s = (Ok results, s1).
Proof.
  intros Hup Hcount Hresults s1 remainingPages.
  assert (Hrun : fetchAllPages E endpoint s =
            (if num_pos remainingPages then
               indices <- lift (array_indices remainingPages);
               requests <- mapM (fun i => fetch E (page_url E endpoint (Z.of_nat i + 2))) indices;
               responses <- lift (rmap settled requests);
               data <- lift (rmap json responses);
               head <- lift (spread results);
               pages <- lift (rmap (fun page => get_prop page "results") data);
               ret (VArr (head ++ flat pages))
             else ret results) s1).
  { unfold fetchAllPages. unfold bind at 1. unfold fetch at 1. fold s1.
    rewrite Hup.
    change (settled (Response ok (Some envelope)))
      with (@Ok (bool * option value) (ok, Some envelope)).
    rewrite (bind_lift_ok _ _ _ _ eq_refl).
    change (json (ok, Some envelope)) with (@Ok value envelope).
    rewrite (bind_lift_ok _ _ _ _ eq_refl).
    rewrite (bind_lift_ok _ _ _ _ Hcount).
    now rewrite (bind_lift_ok _ _ _ _ Hresults). }
  destruct (num_pos remainingPages); [|exact Hrun].
  destruct (array_indices remainingPages) as [indices|e]; [|exact Hrun].
  rewrite Hrun. clear Hrun.
  rewrite (bind_lift_ok _ _ _ _ eq_refl).
  destruct (mapM_fetch E (fun i => page_url E endpoint (Z.of_nat i + 2)) indices s1)
    as (s2 & Hrun & Hlog & _).
  rewrite (bind_ok _ _ _ _ _ Hrun).
  unfold bind, lift, ret.
  destruct (rmap settled _); [|exact Hlog].
  destruct (rmap json _); [|exact Hlog].
  destruct (spread results); [|exact Hlog].
  destruct (rmap (fun page => get_prop page "results") _); exact Hlog.
Qed.

Lemma get_prop_results_defined envelope count :
  get_prop envelope "count" = Ok count -> exists results, get_prop envelope "results" = Ok results.
Proof. destruct envelope; simpl; try discriminate; eauto. Qed.

(** X2: the number of requests is decided by the first page alone.  When
    the first page is answered with an envelope whose count is the number
    [c], and the configured page size is a positive number [ps], both
    integers below 2^53 (where the quotient of the two doubles rounds up to
    the exact ceiling), then [fetchAllPages] asks for exactly the first
    max(1, ceil(c / ps)) pages, whatever the later pages are answered
    with. *)
Theorem fetchAllPages_asks_for_counted_pages endpoint s ok envelope c ps :
  upstream E (log s) (page_url E endpoint 1) = Response ok (Some envelope) ->
  get_prop envelope "count" = Ok (VNum c) ->
  ToNumber E (SWAPI_PAGE_SIZE E) = Fin ps ->
  0 <= c < 9007199254740992 ->
  0 < ps < 9007199254740992 ->
  - (- c / ps) <= 4294967296 ->
  log (snd (fetchAllPages E endpoint s)) =
    log s ++ first_pages E endpoint (Z.to_nat (Z.max 1 (- (- c / ps)))).
Proof.
  intros Hup Hcount Hps _ [Hpos _] Hmax.
  destruct (get_prop_results_defined _ _ Hcount) as [results Hresults].
  pose proof (fetchAllPages_decision endpoint s ok envelope _ results Hup Hcount Hresults)
    as Hrun.
  cbv zeta in Hrun. rewrite Hps in Hrun.
  change (ToNumber E (VNum c)) with (Fin c) in Hrun.
  unfold ceil_div in Hrun.
  replace (ps =? 0) with false in Hrun by (symmetry; apply Z.eqb_neq; lia).
  set (n := - (- c / ps)) in *.
  unfold num_pred, num_pos in Hrun.
  destruct (0 <? n - 1) eqn:Hn.
  - apply Z.ltb_lt in Hn. unfold array_indices in Hrun.
    replace (n - 1 <=? 4294967295) with true in Hrun by (symmetry; apply Z.leb_le; lia).
    rewrite Hrun. simpl log. rewrite <- app_assoc. f_equal.
    replace (Z.to_nat (Z.max 1 n)) with (S (Z.to_nat (n - 1))) by lia.
    now rewrite first_pages_succ.
  - apply Z.ltb_ge in Hn. rewrite Hrun. simpl log.
    now replace (Z.to_nat (Z.max 1 n)) with 1%nat by lia.
Qed.

(** X3: without a usable page size the collection is silently cut to its
    first page.  When the configured page size does not denote a number (the
    variable is not set, say), [fetchAllPages] returns the [results] of the
    first page after that one request, whatever count the page reports. *)
Theorem fetchAllPages_stops_without_page_size endpoint s ok envelope count :
  ToNumber E (SWAPI_PAGE_SIZE E) = NaN ->
  upstream E (log s) (page_url E endpoint 1) = Response ok (Some envelope) ->
  get_prop envelope "count" = Ok count ->
  exists results s1,
    get_prop envelope "results" = Ok results
    /\ fetchAllPages E endpoint s = (Ok results, s1)
    /\ log s1 = log s ++ [page_url E endpoint 1].
Proof.
  intros Hps Hup Hcount.
  destruct (get_prop_results_defined _ _ Hcount) as [results Hresults].
  pose proof (fetchAllPages_decision endpoint s ok envelope _ results Hup Hcount Hresults)
    as Hrun.
  cbv zeta in Hrun. rewrite Hps in Hrun.
  replace (ceil_div (ToNumber E count) NaN) with NaN in Hrun
    by now destruct (ToNumber E count).
  simpl in Hrun. eauto.
Qed.

(** X4: a page size of zero makes every non-empty collection fail.  With a
    configured page size of 0 and a first page that reports a positive
    count, the number of remaining pages is infinite, and [fetchAllPages]
    throws a [RangeError] after its first request. *)
Theorem fetchAllPages_fails_on_zero_page_size endpoint s ok envelope c :
  ToNumber E (SWAPI_PAGE_SIZE E) = Fin 0 ->
  upstream E (log s) (page_url E endpoint 1) = Response ok (Some envelope) ->
  get_prop envelope "count" = Ok (VNum c) ->
  0 < c ->
  exists s1,
    fetchAllPages E endpoint s = (Throw RangeError, s1)
    /\ log s1 = log s ++ [page_url E endpoint 1].
Proof.
  intros Hps Hup Hcount Hc.
  destruct (get_prop_results_defined _ _ Hcount) as [results Hresults].
  pose proof (fetchAllPages_decision endpoint s ok envelope _ results Hup Hcount Hresults)
    as Hrun.
  cbv zeta in Hrun. rewrite Hps in Hrun.
  change (ToNumber E (VNum c)) with (Fin c) in Hrun.
  unfold ceil_div in Hrun. simpl (0 =? 0) in Hrun. cbv iota in Hrun.
  replace (0 <? c) with true in Hrun by (symmetry; apply Z.ltb_lt; lia).
  simpl in Hrun. eauto.
Qed.

(** X5: all or nothing.  If any request [fetchAllPages] issued was rejected,
    or answered with a body that is not JSON, the whole fetch fails: no
    partial collection is returned for a transport failure. *)
Theorem fetchAllPages_fails_on_unanswered_request endpoint s issued :
  log (snd (fetchAllPages E endpoint s)) = log s ++ issued ->
  Exists (fun r => ~ answered r) (answers E (log s) issued) ->
  exists e, fst (fetchAllPages E endpoint s) = Throw e.
Proof.
  intros Hlog Hex.
  destruct (fetchAllPages E endpoint s) as [[v|e] s'] eqn:Hrun; [|simpl; eauto].
  exfalso.
  destruct (fetchAllPages_all_answered E endpoint s v s' Hrun) as (issued' & Hlog' & Hall).
  simpl in Hlog. rewrite Hlog' in Hlog. apply app_inv_head in Hlog. subst issued'.
  induction Hall as [|r rs Hr Hall IH]; inversion Hex; subst; auto.
Qed.

End FetcherPageCount.

(** ** Records the resolver cannot process *)

Section ResolverErrors.

Context (E : environment).

Lemma get_prop_throws v k e : get_prop v k = Throw e -> e = TypeError.
Proof. destruct v; simpl; congruence. Qed.

Lemma flatMap_residents_malformed i planets :
  ~ Forall has_residents planets -> flatMap_residents i planets = Throw TypeError.
Proof.
  revert i. induction planets as [|planet rest IH]; intros i Hbad.
  - exfalso. apply Hbad. constructor.
  - simpl. unfold resident_urls.
    destruct (get_prop planet "residents") as [residents|e] eqn:Hres; simpl.
    + destruct residents; try reflexivity.
      rewrite IH; [reflexivity|].
      intros Hrest. apply Hbad. constructor; [|exact Hrest]. exists elems. exact Hres.
    + now rewrite (get_prop_throws _ _ _ Hres).
Qed.

(** X6: the resolver has no error handling for the records themselves.
    Given anything but an array of planet records that each carry a list of
    resident links, it throws a [TypeError] before it has issued a single
    request, whatever the upstream would have answered. *)
Theorem resolver_rejects_malformed_records v s :
  (forall planets, v = VArr planets -> ~ Forall has_residents planets) ->
  fetchResidentsWithErrorHandling E v s = (Throw TypeError, s).
Proof.
  intros Hbad. destruct v as [| | | | |planets|]; try reflexivity.
  unfold fetchResidentsWithErrorHandling, bind, lift.
  now rewrite (flatMap_residents_malformed 0 planets (Hbad planets eq_refl)).
Qed.

End ResolverErrors.

(** ** What the handlers answer *)

Section Responses.

Context (E : environment).

Lemma succeeds_with_200_bind {A} (m : M A) (k : A -> M response) :
  (forall a, succeeds_with_200 (k a)) -> succeeds_with_200 (bind m k).
Proof.
  intros Hk s out s'. unfold bind.
  destruct (m s) as [[a|e] s1]; [apply Hk|discriminate].
Qed.

Lemma succeeds_with_200_respond payload : succeeds_with_200 (respond 200 payload).
Proof. intros s out s' [= <- _]. reflexivity. Qed.

Lemma try_catch_status (m : M response) message :
  succeeds_with_200 m ->
  forall s, exists out s',
    try_catch m (fun _ => respond 500 (VObj [("error", VStr message)])) s = (Ok out, s')
    /\ (status out = 200 \/ out = error_response 500 message).
Proof.
  intros Hm s. unfold try_catch. specialize (Hm s).
  destruct (m s) as [[out|e] s1].
  - exists out, s1. split; [reflexivity|]. left. now apply (Hm out s1).
  - exists (error_response 500 message), s1. split; [reflexivity|]. now right.
Qed.

Lemma includes_false_or sortBy sortOrder :
  ~ valid_request (GetPeople sortBy sortOrder) ->
  includes VALID_SORT_BY (js_or sortBy (VStr "name")) = false
  \/ includes VALID_SORT_ORDER (js_or sortOrder (VStr "asc")) = false.
Proof.
  simpl. destruct (includes VALID_SORT_BY _); [|now left].
  destruct (includes VALID_SORT_ORDER _); [|now right].
  intros H. exfalso. now apply H.
Qed.

(** X7: no exception escapes a handler, and there are three kinds of
    response.  Every request is answered; a request that passes validation
    with status 200 or with the one 500 response, any other request with a
    400 response and without any change to the state - so a 400 is never the
    answer to a valid request, and a failure of the upstream never reaches
    the client as anything but the 500 response. *)
Theorem handle_answers_200_400_or_500 r s :
  exists out s',
    handle E r s = (Ok out, s')
    /\ (valid_request r ->
          status out = 200 \/ out = error_response 500 "Internal server error")
    /\ (~ valid_request r ->
          s' = s /\ exists message, out = error_response 400 message).
Proof.
  destruct r as [sortBy sortOrder|].
  - destruct (includes VALID_SORT_BY (js_or sortBy (VStr "name"))) eqn:H1;
      [destruct (includes VALID_SORT_ORDER (js_or sortOrder (VStr "asc"))) eqn:H2|].
    + assert (Hbody : exists out s',
                get_people E sortBy sortOrder s = (Ok out, s')
                /\ (status out = 200 \/ out = error_response 500 "Internal server error")).
      { unfold get_people. rewrite H1, H2. simpl negb. cbv iota.
        apply try_catch_status.
        repeat (apply succeeds_with_200_bind; intros ?).
        apply succeeds_with_200_respond. }
      destruct Hbody as (out & s' & Hrun & Hstatus).
      exists out, s'. split; [exact Hrun|]. split; [auto|].
      intros Hbad. exfalso. apply Hbad. simpl. now rewrite H1, H2.
    + destruct (get_people_invalid E sortBy sortOrder s) as [message Hrun]; [now right|].
      exists (error_response 400 message), s. split; [exact Hrun|]. split.
      * simpl. rewrite H2. intros [_ ?]. discriminate.
      * eauto.
    + destruct (get_people_invalid E sortBy sortOrder s) as [message Hrun]; [now left|].
      exists (error_response 400 message), s. split; [exact Hrun|]. split.
      * simpl. rewrite H1. intros [? _]. discriminate.
      * eauto.
  - assert (Hbody : exists out s',
              get_planets E s = (Ok out, s')
              /\ (status out = 200 \/ out = error_response 500 "Internal server error")).
    { unfold get_planets. apply try_catch_status.
      repeat (apply succeeds_with_200_bind; intros ?).
      apply succeeds_with_200_respond. }
    destruct Hbody as (out & s' & Hrun & Hstatus).
    exists out, s'. split; [exact Hrun|]. split; [auto|].
    intros Hbad. exfalso. now apply Hbad.
Qed.

End Responses.

(** ** The two cache entries *)

Section Entries.

Context (E : environment) (key : string).

Lemma entry_kept_ret {A} (a : A) : keeps_entry key (ret a).
Proof. intros s. reflexivity. Qed.

Lemma entry_kept_lift {A} (r : result A) : keeps_entry key (lift r).
Proof. intros s. reflexivity. Qed.

Lemma entry_kept_bind {A B} (m : M A) (k : A -> M B) :
  keeps_entry key m -> (forall a, keeps_entry key (k a)) -> keeps_entry key (bind m k).
Proof.
  intros Hm Hk s. unfold bind. specialize (Hm s).
  destruct (m s) as [[a|e] s1]; simpl in *; [|exact Hm].
  now rewrite Hk.
Qed.

Lemma entry_kept_try_catch {A} (m : M A) (h : exn -> M A) :
  keeps_entry key m -> (forall e, keeps_entry key (h e)) -> keeps_entry key (try_catch m h).
Proof.
  intros Hm Hh s. unfold try_catch. specialize (Hm s).
  destruct (m s) as [[a|e] s1]; simpl in *; [exact Hm|].
  now rewrite Hh.
Qed.

Lemma entry_kept_upstream_only {A} (m : M A) : upstream_only m -> keeps_entry key m.
Proof. intros Hm s. now destruct (upstream_only_frame m s Hm) as [-> _]. Qed.

Lemma entry_kept_alloc v : keeps_entry key (alloc v).
Proof. intros s. now destruct v. Qed.

Lemma entry_kept_deref r : keeps_entry key (deref r).
Proof. intros s. now destruct r. Qed.

Lemma entry_kept_length_of r : keeps_entry key (length_of r).
Proof.
  unfold length_of. apply entry_kept_bind; [apply entry_kept_deref|].
  intros v. apply entry_kept_lift.
Qed.

Lemma entry_kept_cached_or_empty key' : keeps_entry key (cached_or_empty key').
Proof.
  intros s. unfold cached_or_empty, bind, cache_get.
  destruct (cache s !! key') as [[t v]|]; [|reflexivity].
  destruct (t <? clock s); [reflexivity|].
  destruct v; simpl;
    repeat match goal with |- context [if ?b then _ else _] => destruct b end;
    reflexivity.
Qed.

Lemma entry_kept_cache_set key' r ttl :
  key <> key' -> keeps_entry key (cache_set key' r ttl).
Proof.
  intros Hne s. unfold cache_set, bind.
  destruct r; simpl; now rewrite lookup_insert_ne.
Qed.

Lemma entry_kept_sort_stage sortBy sortOrder r :
  keeps_entry key (sort_stage E sortBy sortOrder r).
Proof. intros s. now destruct (sort_stage_frame E sortBy sortOrder r s) as [-> _]. Qed.

Lemma entry_kept_respond code payload : keeps_entry key (respond code payload).
Proof. intros s. reflexivity. Qed.

(** X8: the endpoints do not interfere through the cache.  Whatever a
    request does - answer from the cache, fetch and store, or fail - every
    cache entry but the one of its own endpoint is afterwards what it was
    before. *)
Theorem handle_keeps_other_entries r :
  key <> cache_key r -> keeps_entry key (handle E r).
Proof.
  intros Hne. destruct r as [sortBy sortOrder|]; simpl in *.
  - unfold get_people.
    apply entry_kept_try_catch; [|intros; apply entry_kept_respond].
    destruct (negb _); [apply entry_kept_respond|].
    destruct (negb _); [apply entry_kept_respond|].
    apply entry_kept_bind; [apply entry_kept_cached_or_empty|]. intros people.
    apply entry_kept_bind; [apply entry_kept_length_of|]. intros len.
    apply entry_kept_bind.
    + destruct (is_zero len); [|apply entry_kept_ret].
      apply entry_kept_bind;
        [apply entry_kept_upstream_only, upstream_only_fetchAllPages|]. intros fetched.
      apply entry_kept_bind; [apply entry_kept_alloc|]. intros people'.
      apply entry_kept_bind; [now apply entry_kept_cache_set|]. intros _.
      apply entry_kept_ret.
    + intros people'.
      apply entry_kept_bind; [apply entry_kept_sort_stage|]. intros sorted.
      apply entry_kept_bind; [apply entry_kept_length_of|]. intros count.
      apply entry_kept_bind; [apply entry_kept_deref|]. intros results.
      apply entry_kept_respond.
  - unfold get_planets.
    apply entry_kept_try_catch; [|intros; apply entry_kept_respond].
    apply entry_kept_bind; [apply entry_kept_cached_or_empty|]. intros planets.
    apply entry_kept_bind; [apply entry_kept_length_of|]. intros len.
    apply entry_kept_bind.
    + destruct (is_zero len); [|apply entry_kept_ret].
      apply entry_kept_bind;
        [apply entry_kept_upstream_only, upstream_only_fetchAllPages|]. intros fetched.
      apply entry_kept_bind;
        [apply entry_kept_upstream_only, upstream_only_resolver|]. intros resolved.
      apply entry_kept_bind; [apply entry_kept_alloc|]. intros planets'.
      apply entry_kept_bind; [now apply entry_kept_cache_set|]. intros _.
      apply entry_kept_ret.
    + intros planets'.
      apply entry_kept_bind; [apply entry_kept_length_of|]. intros count.
      apply entry_kept_bind; [apply entry_kept_deref|]. intros results.
      apply entry_kept_respond.
Qed.

End Entries.

Section CacheContents.

Context (E : environment).

(** X9: whatever happens, the cache never holds anything but a collection
    under the key of [/planets]: the handler stores only what the resolver
    returned, and [/people] does not touch the entry. *)
Theorem run_keeps_planets_a_collection events s :
  planets_cached_as_array s -> planets_cached_as_array (snd (run E events s)).
Proof.
  revert s. induction events as [|[ms|r] events IH]; intros s Hinv; simpl.
  - exact Hinv.
  - apply IH. exact Hinv.
  - assert (Hstep : planets_cached_as_array (snd (handle E r s))).
    { destruct r as [sortBy sortOrder|]; simpl.
      - intros t v. rewrite keeps_get_people. apply Hinv.
      - now apply get_planets_shape. }
    destruct (handle E r s) as [out s1]. simpl in Hstep.
    specialize (IH s1 Hstep). now destruct (run E events s1) as [outs s2].
Qed.

(** X10: a failed fetch is not cached.  When a valid request finds nothing
    usable in the cache and the upstream work it stands for fails, the
    request is answered with the 500 response, the cache is left as it was,
    and the upstream has seen the requests of the failed attempt and no
    other. *)
Theorem failed_fetch_is_not_cached r s e s1 :
  valid_request r ->
  nothing_cached (cache_key r) s ->
  full_fetch E r s = (Throw e, s1) ->
  exists s2,
    handle E r s = (Ok (error_response 500 "Internal server error"), s2)
    /\ log s2 = log s1
    /\ cache s2 = cache s.
Proof.
  intros Hvalid Hnothing Hfetch. destruct r as [sortBy sortOrder|]; simpl in *.
  - destruct Hvalid as [H1 H2].
    pose proof (get_people_refetch E sortBy sortOrder s H1 H2 Hnothing) as Hre.
    rewrite Hfetch in Hre. destruct Hre as (s2 & Hrun & Hlog & _ & Hcache). eauto.
  - pose proof (get_planets_refetch E s Hnothing) as Hre.
    rewrite Hfetch in Hre. destruct Hre as (s2 & Hrun & Hlog & _ & Hcache). eauto.
Qed.

(** X11: a collection with a record the resolver cannot process fails
    [/planets] as a whole.  When the fetched collection is not an array of
    planet records with resident links (a page answered with an error body
    leaves [undefined] in it, for one), the request is answered with the 500
    response after the page requests alone: no resident is looked up and
    nothing is cached. *)
Theorem planets_fails_on_malformed_collection s fetched s1 :
  nothing_cached "PLANETS" s ->
  fetchAllPages E "planets" s = (Ok fetched, s1) ->
  (forall planets, fetched = VArr planets -> ~ Forall has_residents planets) ->
  exists s2,
    get_planets E s = (Ok (error_response 500 "Internal server error"), s2)
    /\ log s2 = log s1
    /\ cache s2 = cache s.
Proof.
  intros Hnothing Hfetch Hbad.
  pose proof (get_planets_refetch E s Hnothing) as Hre.
  assert (Hcycle : fetch_and_resolve E s = (Throw TypeError, s1)).
  { unfold fetch_and_resolve. rewrite (bind_ok _ _ _ _ _ Hfetch).
    destruct fetched as [| | | | |planets|]; try reflexivity.
    unfold fetchResidentsWithErrorHandling, bind, lift.
    now rewrite (flatMap_residents_malformed 0 planets (Hbad planets eq_refl)). }
  rewrite Hcycle in Hre. destruct Hre as (s2 & Hrun & Hlog & _ & Hcache). eauto.
Qed.

(** X12: a cold [/planets] request, end to end.  When nothing usable is
    cached and the fetched collection consists of planet records with
    resident links, the request is answered with as many records as were
    fetched, each the fetched record but for its residents; the upstream
    sees the page requests followed by one request per resident link, record
    by record; and the resolved collection is cached for 300 seconds from
    the moment the last lookup returned. *)
Theorem planets_cold_request s planets s1 :
  nothing_cached "PLANETS" s ->
  fetchAllPages E "planets" s = (Ok (VArr planets), s1) ->
  Forall has_residents planets ->
  exists resolved s2,
    get_planets E s = (Ok (ok_response resolved), s2)
    /\ length resolved = length planets
    /\ (forall i planet k, planets !! i = Some planet -> k <> "residents" ->
          exists planet', resolved !! i = Some planet'
                          /\ get_prop planet' k = get_prop planet k)
    /\ log s2 = log s1 ++ concat (map links_of planets)
    /\ cache s2 = <["PLANETS" := (clock s2 + 300 * 1000, VArr resolved)]> (cache s).
Proof.
  intros Hnothing Hfetch Hrecords.
  pose proof (get_planets_refetch E s Hnothing) as Hre.
  destruct (resolver_record E planets s1 Hrecords)
    as (resolved & s1' & Hresolve & Hlog & _ & Hlen & Heach).
  assert (Hcycle : fetch_and_resolve E s = (Ok (VArr resolved), s1')).
  { unfold fetch_and_resolve. now rewrite (bind_ok _ _ _ _ _ Hfetch). }
  rewrite Hcycle in Hre.
  destruct Hre as (planets' & s2 & [= <-] & Hrun & Hlog2 & Hclock & Hcache).
  exists resolved, s2. split; [exact Hrun|]. split; [exact Hlen|]. split.
  - intros i planet k Hi Hk. rewrite (Heach i planet Hi).
    eexists. split; [reflexivity|].
    apply with_residents_other; [|exact Hk].
    rewrite Forall_lookup in Hrecords. exact (Hrecords i planet Hi).
  - split; [congruence|]. rewrite Hcache. now rewrite Hclock.
Qed.

End CacheContents.

(** ** [/people] over time *)

Section PeopleOverTime.

Context (E : environment).

Lemma sort_values_sortable sortBy sortOrder people :
  Forall (has_string_field (to_string E sortBy)) people ->
  exists sorted,
    sort_values (compare_people E sortBy sortOrder) people = Ok sorted
    /\ insertion_sort (compare_people E sortBy sortOrder) people = Ok sorted
    /\ sorted ≡ₚ people.
Proof.
  intros Hwf.
  destruct (insertion_sort_defined (compare_people E sortBy sortOrder)
              (has_string_field (to_string E sortBy))
              (compare_people_defined E sortBy sortOrder) people Hwf) as [sorted Hsorted].
  exists sorted. split; [|split; [exact Hsorted|exact (insertion_sort_perm _ _ _ Hsorted)]].
  unfold sort_values. destruct (filter_defined _ _ Hwf) as [-> ->].
  rewrite Hsorted. simpl. now rewrite app_nil_r.
Qed.

(** While a non-empty collection is live in the cache, every valid
    [/people] request is answered from it, each sorted as it asks. *)
Lemma people_window events s expiresAt people :
  cache s !! "PEOPLE" = Some (expiresAt, VArr people) ->
  people <> [] ->
  Forall people_request (requests events) ->
  clock s + elapsed events <= expiresAt ->
  Forall2 (answered_from E people) (requests events) (fst (run E events s))
  /\ log (snd (run E events s)) = log s
  /\ cache (snd (run E events s)) = cache s.
Proof.
  intros Hc Hne. revert s Hc.
  induction events as [|[ms|r] events IH]; intros s Hc Hreq Ht; simpl in *.
  - repeat split. constructor.
  - destruct (IH (set_clock (clock s + Z.of_N ms) s)) as (Hout & Hlog & Hcache);
      simpl; auto; lia.
  - apply Forall_cons in Hreq as [Hr Hreq].
    destruct r as [sortBy sortOrder|]; [|contradiction]. destruct Hr as [H1 H2]. simpl.
    pose proof (elapsed_nonneg events) as Hpos.
    destruct (get_people_hit E sortBy sortOrder expiresAt people s H1 H2 Hc Hne)
      as [h Hrun]; [lia|].
    rewrite Hrun.
    destruct (IH (set_heap h s)) as (Hout & Hlog & Hcache); auto.
    destruct (run E events (set_heap h s)) as [outs s']. simpl in *.
    repeat split; auto. constructor; [reflexivity|exact Hout].
Qed.

(** A request that fetches a non-empty collection, and the valid requests of
    the 300 seconds after it. *)
Lemma people_cold_window sortBy sortOrder s people s1 events :
  valid_request (GetPeople sortBy sortOrder) ->
  nothing_cached "PEOPLE" s ->
  fetchAllPages E "people" s = (Ok (VArr people), s1) ->
  people <> [] ->
  Forall people_request (requests events) ->
  elapsed events <= 300 * 1000 ->
  Forall2 (answered_from E people) (GetPeople sortBy sortOrder :: requests events)
    (fst (run E (Request (GetPeople sortBy sortOrder) :: events) s))
  /\ log (snd (run E (Request (GetPeople sortBy sortOrder) :: events) s)) = log s1.
Proof.
  intros [H1 H2] Hnothing Hfetch Hne Hreq Ht.
  pose proof (get_people_refetch E sortBy sortOrder s H1 H2 Hnothing) as Hre.
  rewrite Hfetch in Hre. destruct Hre as (s2 & Hrun & Hlog & Hclock & Hcache).
  simpl. rewrite Hrun.
  destruct (people_window events s2 (clock s1 + 300 * 1000) people)
    as (Hout & Hlog' & _); auto.
  { rewrite Hcache. apply lookup_insert_eq. }
  { lia. }
  destruct (run E events s2) as [outs s3]. simpl in *.
  split; [|congruence]. constructor; [reflexivity|exact Hout].
Qed.

Lemma answered_from_sorts people r o :
  sorts E people r -> answered_from E people r o -> serves_all_of people o.
Proof.
  destruct r as [sortBy sortOrder|]; [|contradiction].
  intros [_ Hwf] ->. unfold sorted_response.
  destruct (sort_values_sortable _ (js_or sortOrder (VStr "asc")) _ Hwf)
    as (sorted & -> & _ & Hperm).
  now exists sorted.
Qed.

Lemma sorts_people_request people r : sorts E people r -> people_request r.
Proof. destruct r; [now intros [? _]|contradiction]. Qed.

(** X13: [/people] is cached like [/planets], whatever the sort parameters.
    When a valid [/people] request finds nothing usable in the cache and
    fetches a non-empty collection, that request and every valid [/people]
    request of the 300 seconds after it - each with parameters of its own,
    as long as the field it sorts on is a string in every record - is
    answered with status 200 and a permutation of the fetched collection,
    and the upstream sees no request beyond those of the one fetch. *)
Theorem people_cached_for_ttl s people s1 r events :
  nothing_cached "PEOPLE" s ->
  fetchAllPages E "people" s = (Ok (VArr people), s1) ->
  people <> [] ->
  Forall (sorts E people) (r :: requests events) ->
  elapsed events <= 300 * 1000 ->
  Forall (serves_all_of people) (fst (run E (Request r :: events) s))
  /\ length (fst (run E (Request r :: events) s)) = S (length (requests events))
  /\ log (snd (run E (Request r :: events) s)) = log s1.
Proof.
  intros Hnothing Hfetch Hne Hsorts Ht.
  assert (Hr : people_request r).
  { apply Forall_cons in Hsorts as [Hr _]. exact (sorts_people_request _ _ Hr). }
  destruct r as [sortBy sortOrder|]; [|contradiction].
  destruct (people_cold_window sortBy sortOrder s people s1 events)
    as [Hout Hlog]; auto.
  { apply Forall_cons in Hsorts as [_ Hsorts].
    eapply Forall_impl; [exact Hsorts|]. apply sorts_people_request. }
  split; [|split; [|exact Hlog]].
  - clear Hlog. revert Hsorts.
    induction Hout as [|r o rs os Hro _ IH]; intros Hsorts; [constructor|].
    apply Forall_cons in Hsorts as [Hr' Hsorts].
    constructor; [exact (answered_from_sorts _ _ _ Hr' Hro)|exact (IH Hsorts)].
  - symmetry. exact (Forall2_length _ _ _ Hout).
Qed.

Lemma insertion_sort_incomparable (cmp : value -> value -> result Z) x before after :
  (forall b, In b (before ++ x :: after) -> throws (cmp x b) /\ throws (cmp b x)) ->
  (2 <= length (before ++ x :: after))%nat ->
  throws (insertion_sort cmp (before ++ x :: after)).
Proof.
  induction before as [|y before IH]; intros Hx Hlen; simpl in *.
  - destruct (insertion_sort cmp after) as [sorted|e] eqn:Hsorted; [|now exists e].
    pose proof (insertion_sort_perm _ _ _ Hsorted) as Hperm.
    destruct sorted as [|z sorted].
    { apply Permutation_nil in Hperm. subst after. simpl in Hlen. lia. }
    assert (Hz : In z after).
    { apply (Permutation_in z Hperm). now left. }
    destruct (Hx z (or_intror Hz)) as [[e He] _].
    exists e. simpl. now rewrite He.
  - destruct (Nat.le_gt_cases 2 (length (before ++ x :: after))) as [Hlong|Hshort].
    + destruct IH as [e He]; [|exact Hlong|].
      * intros b Hb. apply Hx. now right.
      * exists e. now rewrite He.
    + destruct before as [|? ?]; simpl in Hshort; [|rewrite length_app in Hshort; simpl in Hshort; lia].
      destruct after as [|? ?]; simpl in Hshort; [|lia].
      destruct (Hx y (or_introl eq_refl)) as [_ [e He]].
      exists e. simpl. now rewrite He.
Qed.

(** A collection of two or more records, one of them incomparable, is one
    on which [sort] throws. *)
Lemma sort_values_incomparable cmp people x :
  incomparable cmp people x ->
  (2 <= length (compared people))%nat ->
  throws (sort_values cmp people).
Proof.
  intros [Hin Hx] Hlen. unfold sort_values. fold (compared people).
  destruct (in_split _ _ Hin) as (before & after & Hsplit).
  rewrite Hsplit in Hx, Hlen |- *.
  destruct (insertion_sort_incomparable cmp x before after Hx Hlen) as [e He].
  exists e. now rewrite He.
Qed.

Lemma cannot_sort_people_request people r : cannot_sort E people r -> people_request r.
Proof. destruct r; [now intros [? _]|contradiction]. Qed.

(** X14: a collection that cannot be sorted is cached all the same.  The
    handler stores what it fetched before it sorts.  So when the fetched
    collection holds two or more records besides [undefined], one of them a
    record on which every comparison throws, whichever side it is on
    ([null], say) - so that the sort throws in whatever order it calls the
    comparator - the request is answered with the 500 response, and so is
    every such request in the 300 seconds after it: from the cache, without
    a new attempt at the upstream. *)
Theorem unsortable_people_stay_cached s people s1 r events :
  nothing_cached "PEOPLE" s ->
  fetchAllPages E "people" s = (Ok (VArr people), s1) ->
  (2 <= length (compared people))%nat ->
  Forall (cannot_sort E people) (r :: requests events) ->
  elapsed events <= 300 * 1000 ->
  fst (run E (Request r :: events) s) =
    replicate (S (length (requests events)))
      (Ok (error_response 500 "Internal server error"))
  /\ log (snd (run E (Request r :: events) s)) = log s1.
Proof.
  intros Hnothing Hfetch Hlen Hcannot Ht.
  assert (Hne : people <> []) by (intros ->; simpl in Hlen; lia).
  assert (Hr : people_request r).
  { apply Forall_cons in Hcannot as [Hr _]. exact (cannot_sort_people_request _ _ Hr). }
  destruct r as [sortBy sortOrder|]; [|contradiction].
  destruct (people_cold_window sortBy sortOrder s people s1 events)
    as [Hout Hlog]; auto.
  { apply Forall_cons in Hcannot as [_ Hcannot].
    eapply Forall_impl; [exact Hcannot|]. apply cannot_sort_people_request. }
  split; [|exact Hlog]. clear Hlog.
  change (S (length (requests events)))
    with (length (GetPeople sortBy sortOrder :: requests events)).
  revert Hcannot.
  induction Hout as [|r o rs os Hro _ IH]; intros Hcannot; [reflexivity|].
  apply Forall_cons in Hcannot as [Hr' Hcannot]. simpl.
  rewrite (IH Hcannot). f_equal.
  destruct r as [sortBy' sortOrder'|]; [|contradiction].
  destruct Hr' as [_ [x Hx]]. simpl in Hro. rewrite Hro. unfold sorted_response.
  destruct (sort_values_incomparable _ _ _ Hx Hlen) as [e ->]. reflexivity.
Qed.

End PeopleOverTime.

(** ** The order of the records in a response *)

Section Direction.

Context (E : environment).

Hypothesis localeCompare_flip :
  forall a b, 0 < localeCompare E a b -> localeCompare E b a <= 0.
Hypothesis localeCompare_trans :
  forall a b c, localeCompare E a b <= 0 -> localeCompare E b c <= 0 ->
                localeCompare E a c <= 0.

Lemma sort_values_ordered sortBy sortOrder people :
  Forall (has_string_field (to_string E sortBy)) people ->
  exists sorted,
    sort_values (compare_people E sortBy sortOrder) people = Ok sorted
    /\ sorted ≡ₚ people
    /\ forall i j a b,
         sorted !! i = Some a -> sorted !! j = Some b -> (i < j)%nat ->
         ordered_by E (to_string E sortBy) sortOrder a b.
Proof.
  intros Hwf.
  destruct (sort_values_sortable E sortBy sortOrder people Hwf)
    as (sorted & Hrun & Hsorted & Hperm).
  exists sorted. split; [exact Hrun|]. split; [exact Hperm|].
  assert (Hss : StronglySorted (in_order (compare_people E sortBy sortOrder)) sorted).
  { apply (insertion_sort_sorted _ (has_string_field (to_string E sortBy)))
      with (l := people); auto.
    - intros x y c [sx Hx] [sy Hy] Hc Hpos.
      rewrite (compare_people_strings E _ _ _ _ _ _ Hx Hy) in Hc. injection Hc as <-.
      eexists. split; [apply (compare_people_strings E _ _ _ _ _ _ Hy Hx)|].
      destruct (is_string "asc" sortOrder); now apply localeCompare_flip.
    - intros x y z [sx Hx] [sy Hy] [sz Hz] (c1 & Hc1 & Hle1) (c2 & Hc2 & Hle2).
      rewrite (compare_people_strings E _ _ _ _ _ _ Hx Hy) in Hc1. injection Hc1 as <-.
      rewrite (compare_people_strings E _ _ _ _ _ _ Hy Hz) in Hc2. injection Hc2 as <-.
      eexists. split; [apply (compare_people_strings E _ _ _ _ _ _ Hx Hz)|].
      destruct (is_string "asc" sortOrder); eauto using localeCompare_trans. }
  assert (Hfields : Forall (has_string_field (to_string E sortBy)) sorted)
    by now rewrite Hperm.
  intros i j a b Hi Hj Hij.
  rewrite Forall_lookup in Hfields.
  destruct (Hfields i a Hi) as [sa Ha]. destruct (Hfields j b Hj) as [sb Hb].
  destruct (strongly_sorted_lookup _ _ _ _ _ _ Hss Hi Hj Hij) as (c & Hc & Hle).
  rewrite (compare_people_strings E _ _ _ _ _ _ Ha Hb) in Hc. injection Hc as <-.
  exists sa, sb. split; [exact Ha|]. split; [exact Hb|].
  destruct (is_string "asc" sortOrder); exact Hle.
Qed.

(** X15: the response lists the records in the order asked for.  With a
    [localeCompare] that is consistent (what it puts after, it does not put
    before, and its order is transitive), a valid [/people] request served
    from a live collection whose sort field is a string in every record is
    answered with a permutation of the collection in which, of any two
    records, the earlier one's field does not compare after the later one's
    for [asc], and the other way round for any other direction. *)
Theorem people_served_in_order sortBy sortOrder expiresAt people s :
  valid_request (GetPeople sortBy sortOrder) ->
  cache s !! "PEOPLE" = Some (expiresAt, VArr people) ->
  people <> [] ->
  clock s <= expiresAt ->
  Forall (has_string_field (to_string E (js_or sortBy (VStr "name")))) people ->
  exists sorted s',
    get_people E sortBy sortOrder s = (Ok (ok_response sorted), s')
    /\ sorted ≡ₚ people
    /\ forall i j a b,
         sorted !! i = Some a -> sorted !! j = Some b -> (i < j)%nat ->
         ordered_by E (to_string E (js_or sortBy (VStr "name")))
           (js_or sortOrder (VStr "asc")) a b.
Proof.
  intros [H1 H2] Hc Hne Ht Hwf.
  destruct (get_people_hit E sortBy sortOrder expiresAt people s H1 H2 Hc Hne Ht)
    as [h Hrun].
  destruct (sort_values_ordered _ (js_or sortOrder (VStr "asc")) _ Hwf)
    as (sorted & Hsort & Hperm & Hord).
  rewrite Hsort in Hrun. eauto.
Qed.

End Direction.

(** ** The properties on concrete worlds *)

Lemma fetchAllPages_asks_for_counted_pages_witness :
  log (snd (fetchAllPages (World.env "2" World.broken_table) "people" World.start)) =
    log World.start
    ++ first_pages (World.env "2" World.broken_table) "people"
         (Z.to_nat (Z.max 1 (- (- 3 / 2)))).
Proof.
  apply (fetchAllPages_asks_for_counted_pages (World.env "2" World.broken_table)
           "people" World.start true
           (VObj [("count", VNum 3); ("next", VNull);
                  ("results", VArr [World.luke; World.c3po])]) 3 2).
  - reflexivity.
  - reflexivity.
  - reflexivity.
  - lia.
  - lia.
  - vm_compute. discriminate.
Defined.

Lemma fetchAllPages_stops_without_page_size_witness :
  exists results s1,
    get_prop (VObj [("count", VNum 3); ("next", VNull);
                    ("results", VArr [World.luke; World.c3po])]) "results" = Ok results
    /\ fetchAllPages (unconfigured World.people_table) "people" World.start = (Ok results, s1)
    /\ log s1 = log World.start ++ [page_url (unconfigured World.people_table) "people" 1].
Proof.
  apply (fetchAllPages_stops_without_page_size (unconfigured World.people_table)
           "people" World.start true _ (VNum 3)).
  - reflexivity.
  - reflexivity.
  - reflexivity.
Defined.

Lemma fetchAllPages_fails_on_zero_page_size_witness :
  exists s1,
    fetchAllPages (World.env "0" World.people_table) "people" World.start
      = (Throw RangeError, s1)
    /\ log s1 = log World.start ++ [page_url (World.env "0" World.people_table) "people" 1].
Proof.
  apply (fetchAllPages_fails_on_zero_page_size (World.env "0" World.people_table)
           "people" World.start true
           (VObj [("count", VNum 3); ("next", VNull);
                  ("results", VArr [World.luke; World.c3po])]) 3).
  - reflexivity.
  - reflexivity.
  - reflexivity.
  - lia.
Defined.

Lemma fetchAllPages_fails_on_unanswered_request_witness :
  exists e,
    fst (fetchAllPages (World.env "2" unreachable_table) "people" World.start) = Throw e.
Proof.
  apply (fetchAllPages_fails_on_unanswered_request (World.env "2" unreachable_table)
           "people" World.start
           [page_url (World.env "2" unreachable_table) "people" 1;
            page_url (World.env "2" unreachable_table) "people" 2]).
  - vm_compute. reflexivity.
  - apply Exists_cons_tl, Exists_cons_hd.
    intros (ok & data & H). vm_compute in H. discriminate H.
Defined.

Lemma resolver_rejects_malformed_records_witness :
  fetchResidentsWithErrorHandling (World.env "10" World.planets_table)
    (VArr [World.planet "Tatooine" ["u/1"]; VUndefined]) World.start
  = (Throw TypeError, World.start).
Proof.
  apply resolver_rejects_malformed_records.
  intros planets [= <-] H.
  inversion H as [|? ? _ H2]. inversion H2 as [|? ? [urls Hurls] _]. discriminate Hurls.
Defined.

Lemma handle_answers_200_400_or_500_witness :
  (exists out s',
     handle (World.env "10" World.planets_table) GetPlanets World.start = (Ok out, s')
     /\ (status out = 200 \/ out = error_response 500 "Internal server error"))
  /\ (exists out s',
        handle (World.env "2" World.people_table) (GetPeople (VStr "color") VUndefined)
          World.start = (Ok out, s')
        /\ s' = World.start
        /\ exists message, out = error_response 400 message).
Proof.
  split.
  - destruct (handle_answers_200_400_or_500 (World.env "10" World.planets_table)
                GetPlanets World.start) as (out & s' & Hrun & Hvalid & _).
    exists out, s'. split; [exact Hrun|]. apply Hvalid. exact I.
  - destruct (handle_answers_200_400_or_500 (World.env "2" World.people_table)
                (GetPeople (VStr "color") VUndefined) World.start)
      as (out & s' & Hrun & _ & Hinvalid).
    exists out, s'. split; [exact Hrun|]. apply Hinvalid.
    intros [H _]. discriminate H.
Defined.

Lemma handle_keeps_other_entries_witness :
  cache (snd (handle (World.env "2" World.people_table) (GetPeople VUndefined VUndefined)
                (World.caching "PLANETS" 1000 World.two_planets_resolved)))
    !! "PLANETS"
  = cache (World.caching "PLANETS" 1000 World.two_planets_resolved) !! "PLANETS".
Proof.
  apply (handle_keeps_other_entries (World.env "2" World.people_table) "PLANETS"
           (GetPeople VUndefined VUndefined)).
  discriminate.
Defined.

Lemma run_keeps_planets_a_collection_witness :
  planets_cached_as_array
    (snd (run (World.env "10" World.planets_table)
            [Request GetPlanets; Elapse 1000; Request (GetPeople VUndefined VUndefined)]
            World.start)).
Proof.
  apply run_keeps_planets_a_collection.
  intros expiresAt v H. simpl in H. rewrite lookup_empty in H. discriminate H.
Defined.

Lemma failed_fetch_is_not_cached_witness :
  exists s2,
    handle (World.env "10" []) GetPlanets World.start
      = (Ok (error_response 500 "Internal server error"), s2)
    /\ log s2 = log (snd (full_fetch (World.env "10" []) GetPlanets World.start))
    /\ cache s2 = cache World.start.
Proof.
  apply (failed_fetch_is_not_cached (World.env "10" []) GetPlanets World.start FetchFailed).
  - exact I.
  - left. reflexivity.
  - vm_compute. reflexivity.
Defined.

Lemma planets_fails_on_malformed_collection_witness :
  exists s2,
    get_planets (World.env "1" broken_planets_table) World.start
      = (Ok (error_response 500 "Internal server error"), s2)
    /\ log s2 = log (snd (fetchAllPages (World.env "1" broken_planets_table) "planets"
                            World.start))
    /\ cache s2 = cache World.start.
Proof.
  apply (planets_fails_on_malformed_collection (World.env "1" broken_planets_table)
           World.start (VArr [World.planet "Tatooine" ["u/1"]; VUndefined])).
  - left. reflexivity.
  - vm_compute. reflexivity.
  - intros planets [= <-] H.
    inversion H as [|? ? _ H2]. inversion H2 as [|? ? [urls Hurls] _]. discriminate Hurls.
Defined.

Lemma planets_cold_request_witness :
  exists resolved s2,
    get_planets (World.env "10" World.planets_table) World.start
      = (Ok (ok_response resolved), s2)
    /\ length resolved = length World.two_planets
    /\ log s2 = log (snd (fetchAllPages (World.env "10" World.planets_table) "planets"
                            World.start))
                ++ concat (map links_of World.two_planets).
Proof.
  destruct (planets_cold_request (World.env "10" World.planets_table) World.start
              World.two_planets
              (snd (fetchAllPages (World.env "10" World.planets_table) "planets"
                      World.start)))
    as (resolved & s2 & Hrun & Hlen & _ & Hlog & _).
  - left. reflexivity.
  - vm_compute. reflexivity.
  - exact two_planets_have_residents.
  - exists resolved, s2. repeat split; assumption.
Defined.

Lemma people_cached_for_ttl_witness :
  Forall (serves_all_of [World.luke; World.c3po; World.vader])
    (fst (run (World.env "2" World.people_table)
            [Request (GetPeople VUndefined VUndefined); Elapse 1000;
             Request (GetPeople (VStr "height") (VStr "desc"))] World.start))
  /\ log (snd (run (World.env "2" World.people_table)
                 [Request (GetPeople VUndefined VUndefined); Elapse 1000;
                  Request (GetPeople (VStr "height") (VStr "desc"))] World.start))
     = log (snd (fetchAllPages (World.env "2" World.people_table) "people" World.start)).
Proof.
  destruct (people_cached_for_ttl (World.env "2" World.people_table) World.start
              [World.luke; World.c3po; World.vader]
              (snd (fetchAllPages (World.env "2" World.people_table) "people" World.start))
              (GetPeople VUndefined VUndefined)
              [Elapse 1000; Request (GetPeople (VStr "height") (VStr "desc"))])
    as (Hout & _ & Hlog).
  - left. reflexivity.
  - vm_compute. reflexivity.
  - discriminate.
  - repeat constructor; eexists; reflexivity.
  - simpl. lia.
  - split; assumption.
Defined.

Lemma unsortable_people_stay_cached_witness :
  fst (run (World.env "10" unsortable_table)
         [Request (GetPeople VUndefined VUndefined); Elapse 1000;
          Request (GetPeople (VStr "height") (VStr "desc"))] World.start)
  = replicate 2 (Ok (error_response 500 "Internal server error"))
  /\ log (snd (run (World.env "10" unsortable_table)
                 [Request (GetPeople VUndefined VUndefined); Elapse 1000;
                  Request (GetPeople (VStr "height") (VStr "desc"))] World.start))
     = log (snd (fetchAllPages (World.env "10" unsortable_table) "people" World.start)).
Proof.
  apply (unsortable_people_stay_cached (World.env "10" unsortable_table)
           World.start [World.luke; VNull]
           (snd (fetchAllPages (World.env "10" unsortable_table) "people" World.start))
           (GetPeople VUndefined VUndefined)
           [Elapse 1000; Request (GetPeople (VStr "height") (VStr "desc"))]).
  - left. reflexivity.
  - vm_compute. reflexivity.
  - simpl. lia.
  - repeat constructor; try reflexivity;
      (exists VNull; split; [right; left; reflexivity|];
       intros b [<-|[<-|[]]]; split; eexists; reflexivity).
  - simpl. lia.
Defined.

Lemma people_served_in_order_witness :
  exists sorted s',
    get_people (World.env "10" []) (VStr "height") (VStr "desc")
      (World.caching "PEOPLE" 1000 [World.luke; World.c3po; World.vader])
    = (Ok (ok_response sorted), s')
    /\ sorted ≡ₚ [World.luke; World.c3po; World.vader]
    /\ forall i j a b,
         sorted !! i = Some a -> sorted !! j = Some b -> (i < j)%nat ->
         ordered_by (World.env "10" []) "height" (VStr "desc") a b.
Proof.
  apply (people_served_in_order (World.env "10" [])
           compare_code_units_flip compare_code_units_trans
           (VStr "height") (VStr "desc") 1000).
  - split; reflexivity.
  - reflexivity.
  - discriminate.
  - simpl. lia.
  - repeat constructor; eexists; reflexivity.
Defined.
